(** * Remote machine synchronisation: client reconciliation, relay and
      authoritative adapter

    Shallow embedding of
    - [useRemoteMachine]        (svelte/store client),
    - [useRemoteMachineRunes]   (rune client),
    - [PubSubBroker]            (extension-host relay),
    - [WebviewPubSubAdapter]    (webview-side dispatch),
    - [wireAppMachineToBroker]  (authoritative adapter),
    followed by the properties of the synchronisation protocol.

    Conventions.  Sequence numbers ([serverSeq], [clientSeq]) are JavaScript
    numbers that only ever hold integers produced by [++] from [0]; they are
    modelled as [Z].  Callbacks handed in by the consumer ([publishEventFn],
    [requestSnapshotFn], [onConnectionChange], [postMessage]) are recorded as
    effects in the order the code performs them.  Reactive cells (svelte
    stores, runes) are plain fields; a derived cell is the function that
    recomputes it. *)

From Stdlib Require Import ZArith Lia.
From stdpp Require Import base option list sorting strings gmap.

Local Open Scope Z_scope.

(** ** JavaScript values and completions *)

(** The values a snapshot or a relay payload can be at run time.  Only the
    distinction the code observes is kept: which values are falsy. *)
#[warnings="-register-all"]
Inductive JsValue : Type :=
  | JsUndefined
  | JsNull
  | JsBool (b : bool)
  | JsNum (n : Z)
  | JsStr (s : string)
  | JsObj (fields : list (string * JsValue)).

(** ToBoolean: [undefined], [null], [false], [0] and the empty string are
    falsy; every object is truthy.  Numbers are the integers, so [NaN], the
    remaining falsy value, has no counterpart here. *)
Definition truthy (v : JsValue) : bool :=
  match v with
  | JsUndefined => false
  | JsNull => false
  | JsBool b => b
  | JsNum n => negb (n =? 0)
  | JsStr s => match s with EmptyString => false | String _ _ => true end
  | JsObj _ => true
  end.

(** [a ?? b] *)
Definition nullish (a b : JsValue) : JsValue :=
  match a with
  | JsUndefined => b
  | JsNull => b
  | _ => a
  end.

(** Outcome of calling a function that may throw. *)
Inductive Completion (A : Type) : Type :=
  | Normal (a : A)
  | Throw (e : JsValue).
Arguments Normal {A} a.
Arguments Throw {A} e.

(** ** Wire shapes shared by client and host *)

(** [RemoteSnapshot<T>]: [echoClientSeq] is [None] when the property is
    [undefined]. *)
Record RemoteSnapshot (T : Type) : Type := mkRemoteSnapshot {
  snapshot : T;
  serverSeq : Z;
  echoClientSeq : option Z
}.
Arguments mkRemoteSnapshot {T} _ _ _.
Arguments snapshot {T} _.
Arguments serverSeq {T} _.
Arguments echoClientSeq {T} _.

(** [TrackedEvent<TEvent>] / [EventWithSeq<TEvent>] *)
Record TrackedEvent (TEvent : Type) : Type := mkTracked {
  event : TEvent;
  clientSeq : Z
}.
Arguments mkTracked {TEvent} _ _.
Arguments event {TEvent} _.
Arguments clientSeq {TEvent} _.

(** ** The optimistic projection shared by both clients *)

Section Optimistic.
Context {TEvent : Type}.

(** [optimistic.reducer]; it is consumer code and may throw. *)
Definition Reducer : Type := JsValue -> TEvent -> Completion JsValue.

(** One reducer application: the accumulator and event it was given. *)
Definition ReducerCall : Type := (JsValue * TEvent)%type.

(** A reducer that never throws computes the function [p]. *)
Definition computes (r : Reducer) (p : JsValue -> TEvent -> JsValue) : Prop :=
  forall s e, r s e = Normal (p s e).


(** [pending.reduce((acc, {event}) => optimistic.reducer(acc, event), base)]:
    left to right, stopping at the first throw.  The first component logs
    every reducer application that was started. *)
Fixpoint reduce (r : Reducer) (pending : list (TrackedEvent TEvent))
    (acc : JsValue) : list ReducerCall * Completion JsValue :=
  match pending with
  | [] => ([], Normal acc)
  | e :: rest =>
      match r acc (event e) with
      | Normal acc' =>
          let '(calls, res) := reduce r rest acc' in
          ((acc, event e) :: calls, res)
      | Throw x => ([(acc, event e)], Throw x)
      end
  end.

(** The callback given to [derived] in both clients:
    [if (!base) return null;
     if (!optimistic || pending.length === 0) return base;
     return pending.reduce(...)]. *)
Definition deriveState (optimistic : option Reducer) (base : JsValue)
    (pending : list (TrackedEvent TEvent))
    : list ReducerCall * Completion JsValue :=
  if negb (truthy base) then ([], Normal JsNull)
  else match optimistic with
       | None => ([], Normal base)
       | Some r =>
           if (length pending =? 0)%nat then ([], Normal base)
           else reduce r pending base
       end.

(** What a client does to the outside world. *)
Inductive Effect : Type :=
  | PublishEvent (e : TEvent) (seq : Z)
  | RequestSnapshot
  | ConnectionChange (c : bool).

(** What can happen to a client. *)
Inductive Input : Type :=
  | InSnapshot (rs : RemoteSnapshot JsValue)
  | InSend (e : TEvent)
  | InRequestSnapshot.

(** The [options] argument.  [optimistic] absent is [None];
    [initialSnapshot] absent is [JsUndefined]; [onConnectionChange] records
    whether a callback was supplied. *)
Record Options : Type := mkOptions {
  optimistic : option Reducer;
  initialSnapshot : JsValue;
  onConnectionChange : bool
}.
End Optimistic.
Arguments Reducer : clear implicits.
Arguments ReducerCall : clear implicits.
Arguments Effect : clear implicits.
Arguments Input : clear implicits.
Arguments Options : clear implicits.
Arguments RequestSnapshot {TEvent}.
Arguments InRequestSnapshot {TEvent}.
Arguments InSnapshot {TEvent} rs.
Arguments ConnectionChange {TEvent} c.

(** ** [useRemoteMachine]: the svelte/store client *)

Module Store.
Section Store.
Context {TEvent : Type}.

(** The closure state of one [useRemoteMachine] call. *)
Record Client : Type := mkClient {
  baseState : JsValue;
  connected : bool;
  pendingEvents : list (TrackedEvent TEvent);
  clientSeqCounter : Z;
  lastServerSeq : Z
}.

Definition useRemoteMachine (options : Options TEvent) : Client :=
  {| baseState := nullish (initialSnapshot options) JsNull;
     connected := false;
     pendingEvents := [];
     clientSeqCounter := 0;
     lastServerSeq := -1 |}.

(** [state]: the derived store. *)
Definition state (options : Options TEvent) (c : Client)
    : list (ReducerCall TEvent) * Completion JsValue :=
  deriveState (optimistic options) (baseState c) (pendingEvents c).

(** [pendingCount]: the derived store. *)
Definition pendingCount (c : Client) : nat := length (pendingEvents c).

Definition handleSnapshot (options : Options TEvent) (c : Client)
    (remoteSnapshot : RemoteSnapshot JsValue)
    : Client * list (Effect TEvent) :=
  if serverSeq remoteSnapshot <=? lastServerSeq c then (c, [])
  else
    let pending :=
      match echoClientSeq remoteSnapshot with
      | Some echo =>
          filter (fun e => echo < clientSeq e) (pendingEvents c)
      | None => pendingEvents c
      end in
    ({| baseState := snapshot remoteSnapshot;
        connected := true;
        pendingEvents := pending;
        clientSeqCounter := clientSeqCounter c;
        lastServerSeq := serverSeq remoteSnapshot |},
     if connected c then []
     else if onConnectionChange options then [ConnectionChange true]
     else []).

Definition send (c : Client) (ev : TEvent) : Client * list (Effect TEvent) :=
  let seq := clientSeqCounter c + 1 in
  ({| baseState := baseState c;
      connected := connected c;
      pendingEvents := pendingEvents c ++ [mkTracked ev seq];
      clientSeqCounter := seq;
      lastServerSeq := lastServerSeq c |},
   [PublishEvent ev seq]).

Definition requestSnapshot (c : Client) : Client * list (Effect TEvent) :=
  (c, [RequestSnapshot]).

Definition step (options : Options TEvent) (c : Client) (i : Input TEvent)
    : Client * list (Effect TEvent) :=
  match i with
  | InSnapshot rs => handleSnapshot options c rs
  | InSend ev => send c ev
  | InRequestSnapshot => requestSnapshot c
  end.

(** The client after a sequence of deliveries and calls. *)
Fixpoint run (options : Options TEvent) (c : Client)
    (inputs : list (Input TEvent)) : Client :=
  match inputs with
  | [] => c
  | i :: rest => run options (step options c i).1 rest
  end.

(** The broadcasts that got past the [serverSeq <= lastServerSeq] guard,
    in the order they were accepted. *)
Fixpoint accepted (options : Options TEvent) (c : Client)
    (inputs : list (Input TEvent)) : list (RemoteSnapshot JsValue) :=
  match inputs with
  | [] => []
  | i :: rest =>
      let later := accepted options (step options c i).1 rest in
      match i with
      | InSnapshot rs =>
          if serverSeq rs <=? lastServerSeq c then later else rs :: later
      | _ => later
      end
  end.
End Store.
Arguments Client : clear implicits.
End Store.

(** ** [useRemoteMachineRunes]: the rune client *)

Module Runes.
Section Runes.
Context {TEvent : Type}.

(** [RuneUtils]: [state] is mandatory; [derived] and [effect] are optional
    and recorded by whether they were supplied. *)
Record RuneUtils : Type := mkRuneUtils {
  derived : bool;
  effect : bool
}.

(** The runes and counters of one [useRemoteMachineRunes] call.
    [pendingCountState] is the [runes.state<number>(0)] cell that stands in
    for the pending count when [derived] is missing; it is never written
    when [derived] is supplied. *)
Record Client : Type := mkClient {
  baseStateRune : JsValue;
  connectedRune : bool;
  pendingEventsRune : list (TrackedEvent TEvent);
  pendingCountState : nat;
  clientSeqCounter : Z;
  lastServerSeq : Z
}.

Definition useRemoteMachineRunes (runes : RuneUtils)
    (options : Options TEvent) : Client :=
  {| baseStateRune := nullish (initialSnapshot options) JsNull;
     connectedRune := false;
     pendingEventsRune := [];
     pendingCountState := 0%nat;
     clientSeqCounter := 0;
     lastServerSeq := -1 |}.

(** [stateRune.current]: the derived rune when [runes.derived] exists,
    otherwise the very object [baseStateRune]. *)
Definition stateRune (runes : RuneUtils) (options : Options TEvent)
    (c : Client) : list (ReducerCall TEvent) * Completion JsValue :=
  if derived runes
  then deriveState (optimistic options) (baseStateRune c)
         (pendingEventsRune c)
  else ([], Normal (baseStateRune c)).

(** [pendingCountRune.current] *)
Definition pendingCountRune (runes : RuneUtils) (c : Client) : nat :=
  if derived runes then length (pendingEventsRune c)
  else pendingCountState c.

Definition handleSnapshot (runes : RuneUtils) (options : Options TEvent)
    (c : Client) (remoteSnapshot : RemoteSnapshot JsValue)
    : Client * list (Effect TEvent) :=
  if serverSeq remoteSnapshot <=? lastServerSeq c then (c, [])
  else
    let '(pending, count) :=
      match echoClientSeq remoteSnapshot with
      | Some echo =>
          let kept :=
            filter (fun e => echo < clientSeq e) (pendingEventsRune c) in
          (kept,
           if derived runes then pendingCountState c else length kept)
      | None => (pendingEventsRune c, pendingCountState c)
      end in
    ({| baseStateRune := snapshot remoteSnapshot;
        connectedRune := true;
        pendingEventsRune := pending;
        pendingCountState := count;
        clientSeqCounter := clientSeqCounter c;
        lastServerSeq := serverSeq remoteSnapshot |},
     if connectedRune c then []
     else if onConnectionChange options then [ConnectionChange true]
     else []).

Definition send (runes : RuneUtils) (c : Client) (ev : TEvent)
    : Client * list (Effect TEvent) :=
  let seq := clientSeqCounter c + 1 in
  let pending := pendingEventsRune c ++ [mkTracked ev seq] in
  ({| baseStateRune := baseStateRune c;
      connectedRune := connectedRune c;
      pendingEventsRune := pending;
      pendingCountState :=
        if derived runes then pendingCountState c else length pending;
      clientSeqCounter := seq;
      lastServerSeq := lastServerSeq c |},
   [PublishEvent ev seq]).

Definition requestSnapshot (c : Client) : Client * list (Effect TEvent) :=
  (c, [RequestSnapshot]).

Definition step (runes : RuneUtils) (options : Options TEvent) (c : Client)
    (i : Input TEvent) : Client * list (Effect TEvent) :=
  match i with
  | InSnapshot rs => handleSnapshot runes options c rs
  | InSend ev => send runes c ev
  | InRequestSnapshot => requestSnapshot c
  end.

Fixpoint run (runes : RuneUtils) (options : Options TEvent) (c : Client)
    (inputs : list (Input TEvent)) : Client :=
  match inputs with
  | [] => c
  | i :: rest => run runes options (step runes options c i).1 rest
  end.

Fixpoint accepted (runes : RuneUtils) (options : Options TEvent)
    (c : Client) (inputs : list (Input TEvent))
    : list (RemoteSnapshot JsValue) :=
  match inputs with
  | [] => []
  | i :: rest =>
      let later := accepted runes options (step runes options c i).1 rest in
      match i with
      | InSnapshot rs =>
          if serverSeq rs <=? lastServerSeq c then later else rs :: later
      | _ => later
      end
  end.

(** The part of a rune client that the store client also has. *)
Definition core (c : Client) : Store.Client TEvent :=
  {| Store.baseState := baseStateRune c;
     Store.connected := connectedRune c;
     Store.pendingEvents := pendingEventsRune c;
     Store.clientSeqCounter := clientSeqCounter c;
     Store.lastServerSeq := lastServerSeq c |}.
End Runes.
Arguments Client : clear implicits.
End Runes.

(** ** The relay: [PubSubBroker] and [WebviewPubSubAdapter] *)

(** [s.includes(needle)] *)
Fixpoint includes (s needle : string) : bool :=
  String.prefix needle s ||
  match s with
  | EmptyString => false
  | String _ rest => includes rest needle
  end.

(** Handlers and panels are known by identity, as in a JavaScript [Set]. *)
Definition HandlerId : Type := nat.
Definition PanelId : Type := nat.

(** [Set.prototype.add]: insertion order, no duplicates. *)
Definition setAdd (h : HandlerId) (hs : list HandlerId) : list HandlerId :=
  if decide (h ∈ hs) then hs else hs ++ [h].

(** [Set.prototype.delete] *)
Definition setDelete (h : HandlerId) (hs : list HandlerId) : list HandlerId :=
  filter (fun h' => h' ≠ h) hs.

Inductive MessageType : Type := MsgPublish | MsgSubscribe.

Record PubSubMessage : Type := mkMessage {
  msgType : MessageType;
  msgTopic : string;
  msgData : JsValue
}.

(** What the relay does to the outside world, in order. *)
Inductive Action : Type :=
  | Invoke (h : HandlerId) (data : JsValue)
  | PostMessage (panel : PanelId) (message : PubSubMessage)
  | ConsoleError (topic : string) (e : JsValue).

Section Relay.
(** What calling handler [h] with a payload does: return or throw.
    Handlers do not call back into the relay while they run. *)
Variable behaviour : HandlerId -> JsValue -> Completion unit.

(** [handlers.forEach(handler => handler(data))]: the first throw ends the
    iteration and leaves [forEach]. *)
Fixpoint forEachHandler (hs : list HandlerId) (data : JsValue)
    : list Action * Completion unit :=
  match hs with
  | [] => ([], Normal tt)
  | h :: rest =>
      match behaviour h data with
      | Normal _ =>
          let '(acts, res) := forEachHandler rest data in
          (Invoke h data :: acts, res)
      | Throw x => ([Invoke h data], Throw x)
      end
  end.

(** [handlers.forEach(handler => { try { handler(data) } catch (e)
    { console.error(...) } })] *)
Fixpoint forEachIsolated (topic : string) (hs : list HandlerId)
    (data : JsValue) : list Action :=
  match hs with
  | [] => []
  | h :: rest =>
      match behaviour h data with
      | Normal _ => Invoke h data :: forEachIsolated topic rest data
      | Throw x =>
          Invoke h data :: ConsoleError topic x
            :: forEachIsolated topic rest data
      end
  end.

(** *** [PubSubBroker] *)

Record PubSubBroker : Type := mkBroker {
  webviews : list PanelId;
  retainedSnapshots : gmap string JsValue;
  topicHandlers : gmap string (list HandlerId)
}.

(** [new PubSubBroker()] *)
Definition createBroker : PubSubBroker :=
  {| webviews := []; retainedSnapshots := ∅; topicHandlers := ∅ |}.

(** [subscribe(topic, handler)].  The returned closure is [unsubscribe]
    below; it is only returned when the completion is [Normal]. *)
Definition subscribe (b : PubSubBroker) (topic : string) (h : HandlerId)
    : PubSubBroker * list Action * Completion unit :=
  let hs := default [] (topicHandlers b !! topic) in
  let b' := {| webviews := webviews b;
               retainedSnapshots := retainedSnapshots b;
               topicHandlers := <[topic := setAdd h hs]> (topicHandlers b) |} in
  match retainedSnapshots b !! topic with
  | Some retained =>
      if truthy retained
      then (b', [Invoke h retained], behaviour h retained)
      else (b', [], Normal tt)
  | None => (b', [], Normal tt)
  end.

(** The closure returned by [subscribe(topic, handler)]. *)
Definition unsubscribe (b : PubSubBroker) (topic : string) (h : HandlerId)
    : PubSubBroker :=
  match topicHandlers b !! topic with
  | Some hs =>
      let hs' := setDelete h hs in
      {| webviews := webviews b;
         retainedSnapshots := retainedSnapshots b;
         topicHandlers :=
           if (length hs' =? 0)%nat then delete topic (topicHandlers b)
           else <[topic := hs']> (topicHandlers b) |}
  | None => b
  end.

(** [publish(topic, data)] *)
Definition publish (b : PubSubBroker) (topic : string) (data : JsValue)
    : PubSubBroker * list Action * Completion unit :=
  let b' :=
    if includes topic ":snapshot"
    then {| webviews := webviews b;
            retainedSnapshots := <[topic := data]> (retainedSnapshots b);
            topicHandlers := topicHandlers b |}
    else b in
  let '(acts, res) :=
    match topicHandlers b' !! topic with
    | Some hs => forEachHandler hs data
    | None => ([], Normal tt)
    end in
  match res with
  | Normal _ =>
      (b',
       acts ++ map (fun p => PostMessage p (mkMessage MsgPublish topic data))
                 (webviews b'),
       Normal tt)
  | Throw x => (b', acts, Throw x)
  end.

(** [attachWebviewPanel(panel)], up to registering the panel's message
    callback.  The retained snapshots are replayed in the enumeration order
    of the finite map, which is not the insertion order of the JavaScript
    [Map]. *)
Definition attachWebviewPanel (b : PubSubBroker) (panel : PanelId)
    : PubSubBroker * list Action :=
  ({| webviews := setAdd panel (webviews b);
      retainedSnapshots := retainedSnapshots b;
      topicHandlers := topicHandlers b |},
   map (fun '(topic, snap) =>
          PostMessage panel (mkMessage MsgPublish topic snap))
     (map_to_list (retainedSnapshots b))).

(** The closure returned by [attachWebviewPanel]. *)
Definition detachWebviewPanel (b : PubSubBroker) (panel : PanelId)
    : PubSubBroker :=
  {| webviews := setDelete panel (webviews b);
     retainedSnapshots := retainedSnapshots b;
     topicHandlers := topicHandlers b |}.

Definition getRetainedSnapshot (b : PubSubBroker) (topic : string)
    : option JsValue :=
  retainedSnapshots b !! topic.

Definition clearRetainedSnapshot (b : PubSubBroker) (topic : string)
    : PubSubBroker :=
  {| webviews := webviews b;
     retainedSnapshots := delete topic (retainedSnapshots b);
     topicHandlers := topicHandlers b |}.

(** Calls on the relay. *)
Inductive RelayOp : Type :=
  | OpSubscribe (topic : string) (h : HandlerId)
  | OpUnsubscribe (topic : string) (h : HandlerId)
  | OpPublish (topic : string) (data : JsValue)
  | OpAttach (panel : PanelId)
  | OpDetach (panel : PanelId)
  | OpClear (topic : string).

Definition relayStep (b : PubSubBroker) (op : RelayOp) : PubSubBroker :=
  match op with
  | OpSubscribe topic h => (subscribe b topic h).1.1
  | OpUnsubscribe topic h => unsubscribe b topic h
  | OpPublish topic data => (publish b topic data).1.1
  | OpAttach panel => (attachWebviewPanel b panel).1
  | OpDetach panel => detachWebviewPanel b panel
  | OpClear topic => clearRetainedSnapshot b topic
  end.

Definition relayRun (b : PubSubBroker) (ops : list RelayOp) : PubSubBroker :=
  foldl relayStep b ops.

(** The payload of the last [publish] on [topic] among [ops], if there is
    one and no [clearRetainedSnapshot] on [topic] came after it. *)
Fixpoint lastPublished (topic : string) (ops : list RelayOp)
    (earlier : option JsValue) : option JsValue :=
  match ops with
  | [] => earlier
  | OpPublish topic' data :: rest =>
      lastPublished topic rest
        (if decide (topic' = topic) then Some data else earlier)
  | OpClear topic' :: rest =>
      lastPublished topic rest
        (if decide (topic' = topic) then None else earlier)
  | _ :: rest => lastPublished topic rest earlier
  end.

(** *** [WebviewPubSubAdapter] *)

Record WebviewPubSubAdapter : Type := mkWebviewAdapter {
  subscriptions : gmap string (list HandlerId)
}.

Definition adapterSubscribe (a : WebviewPubSubAdapter) (topic : string)
    (h : HandlerId) : WebviewPubSubAdapter :=
  {| subscriptions :=
       <[topic := setAdd h (default [] (subscriptions a !! topic))]>
         (subscriptions a) |}.

Definition adapterUnsubscribe (a : WebviewPubSubAdapter) (topic : string)
    (h : HandlerId) : WebviewPubSubAdapter :=
  match subscriptions a !! topic with
  | Some hs =>
      let hs' := setDelete h hs in
      {| subscriptions :=
           if (length hs' =? 0)%nat then delete topic (subscriptions a)
           else <[topic := hs']> (subscriptions a) |}
  | None => a
  end.

(** The ['message'] listener installed by [setupMessageListener];
    [event.data] absent is [None]. *)
Definition messageListener (a : WebviewPubSubAdapter)
    (message : option PubSubMessage) : list Action :=
  match message with
  | Some m =>
      match msgType m with
      | MsgPublish =>
          match subscriptions a !! msgTopic m with
          | Some hs => forEachIsolated (msgTopic m) hs (msgData m)
          | None => []
          end
      | MsgSubscribe => []
      end
  | None => []
  end.
End Relay.

(** ** The authoritative adapter: [wireAppMachineToBroker] *)

Module AppMachine.
Section Adapter.
Context {TSnapshot TEvent : Type}.

(** The actor is the business-logic collaborator.  [initialSnapshot] is
    [actor.getSnapshot()] after [actor.start()]; [transition s e] is
    [actor.send(e)] on an actor whose snapshot is [s], followed by
    [actor.getSnapshot()]: the new snapshot, or the exception that left
    [actor.send], in which case the actor keeps the snapshot it had. *)
Variable initialSnapshot : TSnapshot.
Variable transition : TSnapshot -> TEvent -> Completion TSnapshot.

Variable machineId : string.

Definition snapshotTopic : string := "machine:" +:+ machineId +:+ ":snapshot".
Definition eventsTopic : string := "machine:" +:+ machineId +:+ ":events".
Definition requestTopic : string :=
  "machine:" +:+ machineId +:+ ":request-snapshot".

(** The closure state of one [wireAppMachineToBroker] call. *)
Record Adapter : Type := mkAdapter {
  actorSnapshot : TSnapshot;
  serverSeqCounter : Z;
  lastClientSeq : option Z
}.

(** A call [broker.publish(topic, remoteSnapshot)]. *)
Inductive Publication : Type :=
  | Publish (topic : string) (payload : RemoteSnapshot TSnapshot).

Definition payloadOf (p : Publication) : RemoteSnapshot TSnapshot :=
  match p with Publish _ payload => payload end.

Definition publishSnapshot (a : Adapter) (snap : TSnapshot)
    (echo : option Z) : Adapter * list Publication :=
  let seq := serverSeqCounter a + 1 in
  ({| actorSnapshot := actorSnapshot a;
      serverSeqCounter := seq;
      lastClientSeq := lastClientSeq a |},
   [Publish snapshotTopic (mkRemoteSnapshot snap seq echo)]).

(** The handler subscribed to [eventsTopic]. *)
Definition onEvent (a : Adapter) (data : TrackedEvent TEvent)
    : Adapter * list Publication * Completion unit :=
  let a1 := {| actorSnapshot := actorSnapshot a;
               serverSeqCounter := serverSeqCounter a;
               lastClientSeq := Some (clientSeq data) |} in
  match transition (actorSnapshot a1) (event data) with
  | Normal s' =>
      let a2 := {| actorSnapshot := s';
                   serverSeqCounter := serverSeqCounter a1;
                   lastClientSeq := lastClientSeq a1 |} in
      (publishSnapshot a2 (actorSnapshot a2) (Some (clientSeq data)),
       Normal tt)
  | Throw x => (a1, [], Throw x)
  end.

(** The handler subscribed to [requestTopic]. *)
Definition onRequestSnapshot (a : Adapter)
    : Adapter * list Publication * Completion unit :=
  (publishSnapshot a (actorSnapshot a) (lastClientSeq a), Normal tt).

(** The body of [wireAppMachineToBroker] after the two subscriptions:
    start the actor and publish the initial snapshot. *)
Definition wireAppMachineToBroker : Adapter * list Publication :=
  publishSnapshot
    {| actorSnapshot := initialSnapshot;
       serverSeqCounter := 0;
       lastClientSeq := None |}
    initialSnapshot None.

(** What the relay delivers to the adapter. *)
Inductive Inbound : Type :=
  | InEvent (data : TrackedEvent TEvent)
  | InSnapshotRequest.

Definition deliver (a : Adapter) (i : Inbound)
    : Adapter * list Publication * Completion unit :=
  match i with
  | InEvent data => onEvent a data
  | InSnapshotRequest => onRequestSnapshot a
  end.

(** All broadcasts of an adapter that receives [inbound] in this order,
    starting from state [a]. *)
Fixpoint broadcasts (a : Adapter) (inbound : list Inbound)
    : list Publication :=
  match inbound with
  | [] => []
  | i :: rest =>
      let '(a', pubs, _) := deliver a i in
      pubs ++ broadcasts a' rest
  end.

(** All broadcasts of the adapter's lifetime, the initial one included. *)
Definition lifetime (inbound : list Inbound) : list Publication :=
  let '(a, pubs) := wireAppMachineToBroker in
  pubs ++ broadcasts a inbound.
End Adapter.
Arguments Adapter : clear implicits.
Arguments Publication : clear implicits.
Arguments Inbound : clear implicits.
Arguments InSnapshotRequest {TEvent}.
End AppMachine.

(** ** Concrete scenarios used by the closed examples below *)

Module Scenario.
(** A prediction that counts: events are strings, snapshots numbers. *)
Definition countingReducer : Reducer string :=
  fun s _ =>
    match s with
    | JsNum n => Normal (JsNum (n + 1))
    | _ => Normal (JsNum 1)
    end.


Definition plainOptions : Options string :=
  mkOptions None JsUndefined false.

Definition countingOptions : Options string :=
  mkOptions (Some countingReducer) JsUndefined false.


Definition withDerived : Runes.RuneUtils := Runes.mkRuneUtils true true.
Definition withoutDerived : Runes.RuneUtils := Runes.mkRuneUtils false false.

(** A snapshot object [{count: n}]. *)
Definition countObject (n : Z) : JsValue := JsObj [("count", JsNum n)].

(** A host whose state is a counter and that rejects every event other
    than ["inc"] by throwing. *)
Definition counterTransition (s : Z) (e : string) : Completion Z :=
  if String.eqb e "inc" then Normal (s + 1)
  else Throw (JsStr "rejected").

(** A host whose state is an object [{count: n}]; ["inc"] adds one and every
    other event leaves the state as it is. *)
Definition countTransition (s : JsValue) (e : string) : Completion JsValue :=
  match s with
  | JsObj ((_, JsNum n) :: nil) =>
      if String.eqb e "inc" then Normal (countObject (n + 1)) else Normal s
  | _ => Normal s
  end.

(** Handler [1] throws on every payload, every other handler returns. *)
Definition firstThrows (h : HandlerId) (_ : JsValue) : Completion unit :=
  if (h =? 1)%nat then Throw (JsStr "handler failed") else Normal tt.

(** Handlers that always return. *)
Definition quiet (_ : HandlerId) (_ : JsValue) : Completion unit :=
  Normal tt.
End Scenario.

(** ** Runs with their effects *)

Section Traces.
Context {TEvent : Type}.





(** The broadcasts delivered to the client, in delivery order. *)
Definition deliveries (inputs : list (Input TEvent))
    : list (RemoteSnapshot JsValue) :=
  omap (fun i => match i with
                 | InSnapshot rs => Some rs
                 | _ => None
                 end) inputs.


(** The pending queue is in issuance order: ids strictly increasing, all
    between 1 and the last id issued. *)
Definition pendingOrdered (c : Store.Client TEvent) : Prop :=
  StronglySorted Z.lt (clientSeq <$> Store.pendingEvents c) ∧
  Forall (fun e => 0 < clientSeq e ≤ Store.clientSeqCounter c)
    (Store.pendingEvents c) ∧
  0 ≤ Store.clientSeqCounter c.
End Traces.

(** ** Observations on the relay *)


(** The handler calls among some actions, in order. *)
Definition invocations (acts : list Action) : list (HandlerId * JsValue) :=
  omap (fun a => match a with
                 | Invoke h data => Some (h, data)
                 | _ => None
                 end) acts.

(** The [postMessage] calls among some actions, in order. *)
Definition posts (acts : list Action) : list (PanelId * PubSubMessage) :=
  omap (fun a => match a with
                 | PostMessage panel message => Some (panel, message)
                 | _ => None
                 end) acts.

(** The [console.error] calls among some actions, in order. *)
Definition consoleErrors (acts : list Action) : list (string * JsValue) :=
  omap (fun a => match a with
                 | ConsoleError topic e => Some (topic, e)
                 | _ => None
                 end) acts.

(** The handlers registered for a topic, in registration order. *)
Definition handlersOf (m : gmap string (list HandlerId)) (topic : string)
    : list HandlerId :=
  default [] (m !! topic).

(** No topic is kept with an empty handler set and no set holds a handler
    twice. *)
Definition handlersWellFormed (m : gmap string (list HandlerId)) : Prop :=
  ∀ topic hs, m !! topic = Some hs → hs ≠ [] ∧ NoDup hs.

Definition brokerWellFormed (b : PubSubBroker) : Prop :=
  handlersWellFormed (topicHandlers b) ∧
  NoDup (webviews b) ∧
  ∀ topic data,
    retainedSnapshots b !! topic = Some data →
    includes topic ":snapshot" = true.

(** *** The sending side of [WebviewPubSubAdapter] *)

(** What [window.acquireVsCodeApi] is when the adapter is constructed:
    missing, a function that returns the API object, or one that throws. *)
Inductive AcquireVsCodeApi : Type :=
  | AcquireAbsent
  | AcquireReturns
  | AcquireThrows (e : JsValue).

(** The globals the adapter probes: whether [window] is defined, what
    [window.acquireVsCodeApi] is, and whether [window.parent] is truthy. *)
Record WebviewEnv : Type := mkWebviewEnv {
  hasWindow : bool;
  acquireVsCodeApi : AcquireVsCodeApi;
  hasParent : bool
}.

(** The fields [vscodeApi] (non-null or null) and [useFallback]. *)
Record WebviewTransport : Type := mkTransport {
  vscodeApi : bool;
  useFallback : bool
}.

Inductive TransportAction : Type :=
  | ApiPostMessage (message : PubSubMessage)
  | ParentPostMessage (message : PubSubMessage) (targetOrigin : string)
  | ConsoleWarn
  | AddMessageListener.

(** [new WebviewPubSubAdapter()]: probe for the VS Code API, then
    [setupMessageListener()]. *)
Definition newWebviewPubSubAdapter (env : WebviewEnv)
    : WebviewTransport * list TransportAction :=
  let '(t, warned) :=
    if hasWindow env then
      match acquireVsCodeApi env with
      | AcquireReturns => (mkTransport true false, [])
      | AcquireThrows _ => (mkTransport false true, [ConsoleWarn])
      | AcquireAbsent => (mkTransport false true, [])
      end
    else (mkTransport false true, []) in
  (t, warned ++ if hasWindow env then [AddMessageListener] else []).

(** [publish(topic, data)] of the webview adapter. *)
Definition adapterPublish (env : WebviewEnv) (t : WebviewTransport)
    (topic : string) (data : JsValue) : list TransportAction :=
  let message := mkMessage MsgPublish topic data in
  if vscodeApi t && negb (useFallback t) then [ApiPostMessage message]
  else if hasWindow env && hasParent env
       then [ParentPostMessage message "*"]
       else [ConsoleWarn].

Definition isFallbackMode (t : WebviewTransport) : bool := useFallback t.

(** ** Runs of the authoritative adapter *)

Section AdapterRuns.
Context {TSnapshot TEvent : Type}.
Variable initialSnapshot : TSnapshot.
Variable transition : TSnapshot -> TEvent -> Completion TSnapshot.
Variable machineId : string.

(** The adapter after the relay has delivered [inbound] to it. *)
Fixpoint adapterRun (a : AppMachine.Adapter TSnapshot)
    (inbound : list (AppMachine.Inbound TEvent))
    : AppMachine.Adapter TSnapshot :=
  match inbound with
  | [] => a
  | i :: rest =>
      adapterRun (AppMachine.deliver transition machineId a i).1.1 rest
  end.

(** The adapter that was wired and has then been delivered [inbound]. *)
Definition adapterAfter (inbound : list (AppMachine.Inbound TEvent))
    : AppMachine.Adapter TSnapshot :=
  adapterRun (AppMachine.wireAppMachineToBroker initialSnapshot machineId).1
    inbound.

End AdapterRuns.


(** * Properties *)

(** ** Client: stale broadcasts and accepted versions *)

Section StoreFacts.
Context {TEvent : Type}.
Implicit Types (c : Store.Client TEvent) (rs : RemoteSnapshot JsValue).
Implicit Types (options : Options TEvent) (inputs : list (Input TEvent)).

Lemma store_stale options c rs :
  serverSeq rs ≤ Store.lastServerSeq c →
  Store.handleSnapshot options c rs = (c, []).
Proof.
  intros Hle. unfold Store.handleSnapshot.
  destruct (Z.leb_spec (serverSeq rs) (Store.lastServerSeq c)); [done | lia].
Qed.

Lemma store_fresh options c rs :
  Store.lastServerSeq c < serverSeq rs →
  (Store.handleSnapshot options c rs).1 =
    {| Store.baseState := snapshot rs;
       Store.connected := true;
       Store.pendingEvents :=
         match echoClientSeq rs with
         | Some echo =>
             filter (fun e => echo < clientSeq e) (Store.pendingEvents c)
         | None => Store.pendingEvents c
         end;
       Store.clientSeqCounter := Store.clientSeqCounter c;
       Store.lastServerSeq := serverSeq rs |}.
Proof.
  intros Hlt. unfold Store.handleSnapshot.
  destruct (Z.leb_spec (serverSeq rs) (Store.lastServerSeq c)); [lia | done].
Qed.

(** The highest version seen never decreases. *)
Lemma store_step_lastServerSeq options c i :
  Store.lastServerSeq c ≤ Store.lastServerSeq (Store.step options c i).1.
Proof.
  destruct i as [rs | ev |]; simpl; [| lia | lia].
  unfold Store.handleSnapshot.
  destruct (Z.leb_spec (serverSeq rs) (Store.lastServerSeq c)); simpl; lia.
Qed.

(** Every accepted version exceeds the highest version seen before, and
    the accepted versions are strictly increasing among themselves. *)
Lemma store_accepted_sorted options inputs : ∀ c,
  Forall (fun rs => Store.lastServerSeq c < serverSeq rs)
    (Store.accepted options c inputs) ∧
  StronglySorted Z.lt (serverSeq <$> Store.accepted options c inputs).
Proof.
  induction inputs as [| i rest IH]; intros c; simpl.
  { split; constructor. }
  destruct (IH (Store.step options c i).1) as [Hbound Hsorted].
  pose proof (store_step_lastServerSeq options c i) as Hmono.
  assert (Forall (fun rs => Store.lastServerSeq c < serverSeq rs)
            (Store.accepted options (Store.step options c i).1 rest))
    as Hbound'.
  { eapply Forall_impl; [exact Hbound |]. simpl. intros; lia. }
  destruct i as [rs | ev |]; try (split; assumption).
  destruct (Z.leb_spec (serverSeq rs) (Store.lastServerSeq c)) as [Hle | Hlt].
  { split; assumption. }
  split.
  - constructor; [lia | exact Hbound'].
  - rewrite fmap_cons. constructor; [exact Hsorted |].
    apply Forall_fmap. eapply Forall_impl; [exact Hbound |].
    simpl. intros rs' Hrs'.
    rewrite store_fresh in Hrs' by lia. simpl in Hrs'. exact Hrs'.
Qed.

(** The confirmed state is the snapshot of the last accepted broadcast,
    or what it was before if none was accepted. *)
Lemma store_base_last_accepted options inputs : ∀ c,
  Store.baseState (Store.run options c inputs) =
    default (Store.baseState c)
      (snapshot <$> last (Store.accepted options c inputs)).
Proof.
  induction inputs as [| i rest IH]; intros c; simpl; [done |].
  rewrite IH.
  destruct i as [rs | ev |]; simpl; [| done | done].
  unfold Store.handleSnapshot.
  destruct (Z.leb_spec (serverSeq rs) (Store.lastServerSeq c)); [done |].
  simpl.
  match goal with |- context [Store.accepted options ?c' rest] =>
    destruct (Store.accepted options c' rest) as [| rs' acc] eqn:Hacc
  end; [done |].
  rewrite !last_cons.
  destruct (last acc); done.
Qed.
End StoreFacts.

(** The rune client keeps the same books as the store client. *)
Section RunesFacts.
Context {TEvent : Type}.
Implicit Types (c : Runes.Client TEvent) (rs : RemoteSnapshot JsValue).
Implicit Types (options : Options TEvent) (inputs : list (Input TEvent)).
Implicit Types (runes : Runes.RuneUtils).

Lemma runes_stale runes options c rs :
  serverSeq rs ≤ Runes.lastServerSeq c →
  Runes.handleSnapshot runes options c rs = (c, []).
Proof.
  intros Hle. unfold Runes.handleSnapshot.
  destruct (Z.leb_spec (serverSeq rs) (Runes.lastServerSeq c)); [done | lia].
Qed.

Lemma runes_core_step runes options c i :
  Runes.core (Runes.step runes options c i).1 =
    (Store.step options (Runes.core c) i).1 ∧
  (Runes.step runes options c i).2 = (Store.step options (Runes.core c) i).2.
Proof.
  destruct i as [rs | ev |]; simpl; [| done | done].
  unfold Runes.handleSnapshot, Store.handleSnapshot. simpl.
  destruct (serverSeq rs <=? Runes.lastServerSeq c); [done |].
  destruct (echoClientSeq rs); done.
Qed.

Lemma runes_core_run runes options inputs : ∀ c,
  Runes.core (Runes.run runes options c inputs) =
    Store.run options (Runes.core c) inputs.
Proof.
  induction inputs as [| i rest IH]; intros c; simpl; [done |].
  rewrite IH. f_equal. apply runes_core_step.
Qed.

Lemma runes_accepted_core runes options inputs : ∀ c,
  Runes.accepted runes options c inputs =
    Store.accepted options (Runes.core c) inputs.
Proof.
  induction inputs as [| i rest IH]; intros c; simpl; [done |].
  rewrite IH. destruct (runes_core_step runes options c i) as [-> _].
  destruct i; done.
Qed.

Lemma runes_core_init runes options :
  Runes.core (Runes.useRemoteMachineRunes runes options) =
    Store.useRemoteMachine options.
Proof. done. Qed.

(** Without [derived] the hand-maintained count equals the queue length. *)
Lemma runes_manual_count runes options inputs : ∀ c,
  Runes.derived runes = false →
  Runes.pendingCountState c = length (Runes.pendingEventsRune c) →
  Runes.pendingCountRune runes (Runes.run runes options c inputs) =
    length (Runes.pendingEventsRune (Runes.run runes options c inputs)).
Proof.
  intros c Hd. unfold Runes.pendingCountRune. rewrite Hd. revert c.
  induction inputs as [| i rest IH]; intros c Hc; simpl; [done |].
  apply IH. destruct i as [rs | ev |]; simpl; [| by rewrite Hd | done].
  unfold Runes.handleSnapshot.
  destruct (serverSeq rs <=? Runes.lastServerSeq c); [done |].
  destruct (echoClientSeq rs); simpl; [by rewrite Hd | done].
Qed.
End RunesFacts.

(** C1.  A broadcast whose version does not exceed the highest version the
    client has seen is dropped: the client (confirmed state, pending queue,
    connected flag, highest version, and for the rune client the manual
    pending count) is returned as it was and nothing is emitted.  The
    versions of the broadcasts a client accepts, from any state and under any
    interleaving with [send] and [requestSnapshot], are strictly increasing.
    Broadcasts with versions 1, 3, 2, 5 delivered to a new client are accepted
    as 1, 3, 5.  All of this holds for the store client and the rune
    client. *)
Theorem C1_accepted_versions_strictly_increasing
    {TEvent : Type} (options : Options TEvent) (runes : Runes.RuneUtils) :
  (∀ (c : Store.Client TEvent) rs,
     serverSeq rs ≤ Store.lastServerSeq c →
     Store.handleSnapshot options c rs = (c, [])) ∧
  (∀ (c : Runes.Client TEvent) rs,
     serverSeq rs ≤ Runes.lastServerSeq c →
     Runes.handleSnapshot runes options c rs = (c, [])) ∧
  (∀ (c : Store.Client TEvent) inputs,
     StronglySorted Z.lt (serverSeq <$> Store.accepted options c inputs)) ∧
  (∀ (c : Runes.Client TEvent) inputs,
     StronglySorted Z.lt
       (serverSeq <$> Runes.accepted runes options c inputs)) ∧
  (∀ broadcasts : list (RemoteSnapshot JsValue),
     serverSeq <$> broadcasts = [1; 3; 2; 5] →
     serverSeq <$> Store.accepted options (Store.useRemoteMachine options)
                     (InSnapshot <$> broadcasts) = [1; 3; 5] ∧
     serverSeq <$> Runes.accepted runes options
                     (Runes.useRemoteMachineRunes runes options)
                     (InSnapshot <$> broadcasts) = [1; 3; 5]).
Proof.
  split; [intros; by apply store_stale |].
  split; [intros; by apply runes_stale |].
  split; [intros; apply store_accepted_sorted |].
  split.
  { intros c inputs. rewrite runes_accepted_core.
    apply store_accepted_sorted. }
  intros broadcasts Hv.
  rewrite runes_accepted_core, runes_core_init.
  assert (serverSeq <$> Store.accepted options (Store.useRemoteMachine options)
                          (InSnapshot <$> broadcasts) = [1; 3; 5]); [| done].
  destruct broadcasts as [| [s1 v1 e1] [| [s2 v2 e2] [| [s3 v3 e3]
                            [| [s4 v4 e4] [| ? ?]]]]]; try discriminate.
  simpl in Hv. injection Hv as -> -> -> ->. reflexivity.
Qed.

(** C1 at a concrete stale delivery: a client that has accepted version 3
    ignores version 2. *)
Lemma C1_witness :
  let c := Store.run Scenario.countingOptions
             (Store.useRemoteMachine Scenario.countingOptions)
             [InSend "inc"; InSnapshot (mkRemoteSnapshot (JsNum 7) 3 None)] in
  let r := Runes.run Scenario.withoutDerived Scenario.countingOptions
             (Runes.useRemoteMachineRunes Scenario.withoutDerived
                Scenario.countingOptions)
             [InSend "inc"; InSnapshot (mkRemoteSnapshot (JsNum 7) 3 None)] in
  Store.handleSnapshot Scenario.countingOptions c
    (mkRemoteSnapshot (JsNum 9) 2 (Some 1)) = (c, []) ∧
  Runes.handleSnapshot Scenario.withoutDerived Scenario.countingOptions r
    (mkRemoteSnapshot (JsNum 9) 2 (Some 1)) = (r, []) ∧
  serverSeq <$> Store.accepted Scenario.countingOptions
                  (Store.useRemoteMachine Scenario.countingOptions)
                  (InSnapshot <$> [mkRemoteSnapshot (JsNum 1) 1 None;
                                   mkRemoteSnapshot (JsNum 3) 3 None;
                                   mkRemoteSnapshot (JsNum 2) 2 None;
                                   mkRemoteSnapshot (JsNum 5) 5 None])
    = [1; 3; 5].
Proof.
  intros c r.
  pose proof (C1_accepted_versions_strictly_increasing
                Scenario.countingOptions Scenario.withoutDerived)
    as (Hs & Hr & _ & _ & Hex).
  split; [apply Hs; vm_compute; discriminate |].
  split; [apply Hr; vm_compute; discriminate |].
  apply Hex. reflexivity.
Defined.

(** ** Client: cumulative acknowledgment *)

Section Retire.
Context {TEvent : Type}.
Implicit Types (pending : list (TrackedEvent TEvent)) (N : Z).


Lemma store_pending_after_ack (options : Options TEvent)
    (c : Store.Client TEvent) rs N :
  Store.lastServerSeq c < serverSeq rs →
  echoClientSeq rs = Some N →
  Store.pendingEvents (Store.handleSnapshot options c rs).1 =
    filter (fun e => N < clientSeq e) (Store.pendingEvents c).
Proof. intros Hlt Hecho. rewrite store_fresh by done. simpl. by rewrite Hecho. Qed.

End Retire.



(** ** Client: the visible state *)

Section Visible.
Context {TEvent : Type}.
Implicit Types (r : Reducer TEvent) (p : JsValue → TEvent → JsValue).
Implicit Types (pending : list (TrackedEvent TEvent)) (base acc : JsValue).

Lemma reduce_computes r p pending : ∀ acc,
  computes r p →
  (reduce r pending acc).2 =
    Normal (foldl (fun s e => p s (event e)) acc pending).
Proof.
  induction pending as [| e rest IH]; intros acc Hp; simpl; [done |].
  rewrite Hp. specialize (IH (p acc (event e)) Hp).
  destruct (reduce r rest (p acc (event e))) as [calls res]. exact IH.
Qed.


Lemma deriveState_falsy (o : option (Reducer TEvent)) base pending :
  truthy base = false → deriveState o base pending = ([], Normal JsNull).
Proof. intros Hb. unfold deriveState. by rewrite Hb. Qed.


Lemma deriveState_computes r p base pending :
  truthy base = true →
  computes r p →
  (deriveState (Some r) base pending).2 =
    Normal (foldl (fun s e => p s (event e)) base pending).
Proof.
  intros Hb Hp. unfold deriveState. rewrite Hb. simpl.
  destruct pending as [| e rest]; [done |].
  by apply reduce_computes.
Qed.



End Visible.







(** C9.  When the rune utilities have no [derived], the exposed state of the
    rune client is its base state cell: after any sequence of deliveries and
    calls, whatever reducer is configured and whatever is pending,
    [state.current] is the confirmed state, no reducer application is made,
    and the confirmed state is the snapshot of the last accepted broadcast
    (the starting value if none was accepted). *)
Theorem C9_without_derived_state_is_base
    {TEvent : Type} (options : Options TEvent) (runes : Runes.RuneUtils)
    (c0 : Runes.Client TEvent) (inputs : list (Input TEvent)) :
  Runes.derived runes = false →
  let c := Runes.run runes options c0 inputs in
  Runes.stateRune runes options c = ([], Normal (Runes.baseStateRune c)) ∧
  Runes.baseStateRune c =
    default (Runes.baseStateRune c0)
      (snapshot <$> last (Runes.accepted runes options c0 inputs)).
Proof.
  intros Hd c. split.
  - unfold Runes.stateRune. by rewrite Hd.
  - subst c.
    change (Runes.baseStateRune ?x) with (Store.baseState (Runes.core x)).
    rewrite runes_core_run, runes_accepted_core.
    apply store_base_last_accepted.
Qed.

(** C9 on a rune client without [derived] that accepted [{count: 0}] and
    then sent an event under a counting reducer. *)
Lemma C9_witness :
  let c0 := Runes.useRemoteMachineRunes Scenario.withoutDerived
              Scenario.countingOptions in
  let inputs := [InSnapshot (mkRemoteSnapshot (Scenario.countObject 0) 1 None);
                 InSend "inc"] in
  let c := Runes.run Scenario.withoutDerived Scenario.countingOptions
             c0 inputs in
  Runes.pendingEventsRune c = [mkTracked "inc" 1] ∧
  Runes.stateRune Scenario.withoutDerived Scenario.countingOptions c =
    ([], Normal (Scenario.countObject 0)).
Proof.
  intros c0 inputs c. split; [reflexivity |].
  destruct (C9_without_derived_state_is_base Scenario.countingOptions
              Scenario.withoutDerived c0 inputs eq_refl) as [Hstate Hbase].
  fold c in Hstate, Hbase. rewrite Hstate, Hbase. reflexivity.
Defined.

(** C10.  A client created without an initial snapshot exposes [null] for as
    long as no broadcast has been accepted, whatever was sent and whatever
    reducer is configured, and no reducer application is made; this holds for
    the store client and for the rune client with or without [derived].  In
    general the recomputation yields [null] without applying the reducer
    whenever the confirmed state is falsy. *)
Theorem C10_null_until_first_accepted_broadcast
    {TEvent : Type} (options : Options TEvent) (runes : Runes.RuneUtils)
    (inputs : list (Input TEvent)) :
  (initialSnapshot options = JsUndefined →
   Store.accepted options (Store.useRemoteMachine options) inputs = [] →
   Store.state options
     (Store.run options (Store.useRemoteMachine options) inputs)
     = ([], Normal JsNull)) ∧
  (initialSnapshot options = JsUndefined →
   Runes.accepted runes options (Runes.useRemoteMachineRunes runes options)
     inputs = [] →
   Runes.stateRune runes options
     (Runes.run runes options (Runes.useRemoteMachineRunes runes options)
        inputs)
     = ([], Normal JsNull)) ∧
  (∀ base pending,
     truthy base = false →
     deriveState (optimistic options) base pending = ([], Normal JsNull)).
Proof.
  assert (initialSnapshot options = JsUndefined →
          Store.accepted options (Store.useRemoteMachine options) inputs = [] →
          Store.baseState
            (Store.run options (Store.useRemoteMachine options) inputs)
          = JsNull) as Hbase.
  { intros Hinit Hnone.
    rewrite store_base_last_accepted, Hnone. simpl. by rewrite Hinit. }
  split; [| split].
  - intros Hinit Hnone. unfold Store.state. rewrite Hbase by done.
    by apply deriveState_falsy.
  - intros Hinit Hnone. unfold Runes.stateRune.
    rewrite runes_accepted_core, runes_core_init in Hnone.
    change (Runes.baseStateRune ?x) with (Store.baseState (Runes.core x)).
    rewrite runes_core_run, runes_core_init, Hbase by done.
    destruct (Runes.derived runes); [| done].
    by apply deriveState_falsy.
  - intros. by apply deriveState_falsy.
Qed.

(** C10 on a client with a counting reducer that sends twice, asks for a
    snapshot and is handed a broadcast too old to be accepted. *)
Lemma C10_witness :
  let inputs := [InSend "inc"; InRequestSnapshot; InSend "inc";
                 InSnapshot (mkRemoteSnapshot (Scenario.countObject 4) (-1)
                               (Some 1))] in
  Store.pendingEvents
    (Store.run Scenario.countingOptions
       (Store.useRemoteMachine Scenario.countingOptions) inputs)
    = [mkTracked "inc" 1; mkTracked "inc" 2] ∧
  Store.state Scenario.countingOptions
    (Store.run Scenario.countingOptions
       (Store.useRemoteMachine Scenario.countingOptions) inputs)
    = ([], Normal JsNull) ∧
  Runes.stateRune Scenario.withDerived Scenario.countingOptions
    (Runes.run Scenario.withDerived Scenario.countingOptions
       (Runes.useRemoteMachineRunes Scenario.withDerived
          Scenario.countingOptions) inputs)
    = ([], Normal JsNull) ∧
  deriveState (Some Scenario.countingReducer) (JsNum 0) [mkTracked "inc" 1]
    = ([], Normal JsNull).
Proof.
  intros inputs.
  destruct (C10_null_until_first_accepted_broadcast Scenario.countingOptions
              Scenario.withDerived inputs) as (Hstore & Hrunes & Hfalsy).
  split; [reflexivity |]. split; [| split].
  - apply Hstore; reflexivity.
  - apply Hrunes; reflexivity.
  - apply (Hfalsy (JsNum 0)). reflexivity.
Defined.

(** ** The authoritative adapter *)

Section AdapterFacts.
Context {TSnapshot TEvent : Type}.
Variable initialSnapshot : TSnapshot.
Variable transition : TSnapshot → TEvent → Completion TSnapshot.
Variable machineId : string.

Abbreviation Adapter := (AppMachine.Adapter TSnapshot).
Abbreviation onEvent := (AppMachine.onEvent transition machineId).
Abbreviation onRequestSnapshot := (AppMachine.onRequestSnapshot machineId).
Abbreviation deliver := (AppMachine.deliver transition machineId).
Abbreviation broadcasts := (AppMachine.broadcasts transition machineId).
Abbreviation lifetime := (AppMachine.lifetime initialSnapshot transition machineId).
Abbreviation version := (fun p => serverSeq (AppMachine.payloadOf p)).

(** One delivery publishes at most once; a publication carries the counter
    it leaves behind, one above the counter it found. *)
Lemma deliver_versions (a : Adapter) i :
  let '(a', pubs, _) := deliver a i in
  (pubs = [] ∧ AppMachine.serverSeqCounter a' = AppMachine.serverSeqCounter a) ∨
  (∃ p, pubs = [p] ∧
        version p = AppMachine.serverSeqCounter a + 1 ∧
        AppMachine.serverSeqCounter a' = AppMachine.serverSeqCounter a + 1).
Proof.
  destruct i as [data |]; simpl.
  - unfold AppMachine.onEvent. simpl.
    destruct (transition (AppMachine.actorSnapshot a) (event data)); simpl.
    + right. eexists. split; [reflexivity |]. done.
    + by left.
  - right. eexists. split; [reflexivity |]. done.
Qed.

Lemma broadcasts_sorted inbound : ∀ a : Adapter,
  Forall (fun p => AppMachine.serverSeqCounter a < version p)
    (broadcasts a inbound) ∧
  StronglySorted Z.lt (version <$> broadcasts a inbound).
Proof.
  induction inbound as [| i rest IH]; intros a; simpl.
  { split; constructor. }
  pose proof (deliver_versions a i) as Hd.
  destruct (deliver a i) as [[a' pubs] res].
  destruct (IH a') as [Hbound Hsorted].
  destruct Hd as [[-> Hc] | (p & -> & Hv & Hc)]; simpl.
  - rewrite Hc in Hbound. by split.
  - assert (Forall (fun q => version p < version q) (broadcasts a' rest))
      as Hafter.
    { eapply Forall_impl; [exact Hbound |]. simpl. intros; lia. }
    split.
    + constructor; [lia |].
      eapply Forall_impl; [exact Hbound |]. simpl. intros; lia.
    + constructor; [exact Hsorted |]. by apply Forall_fmap.
Qed.

Lemma lifetime_sorted inbound :
  StronglySorted Z.lt (version <$> lifetime inbound).
Proof.
  unfold AppMachine.lifetime, AppMachine.wireAppMachineToBroker. simpl.
  match goal with |- context [broadcasts ?a inbound] =>
    destruct (broadcasts_sorted inbound a) as [Hbound Hsorted]
  end.
  constructor; [exact Hsorted |]. apply Forall_fmap.
  eapply Forall_impl; [exact Hbound |]. simpl. intros; lia.
Qed.

(** Every broadcast goes to the snapshot topic. *)
Lemma lifetime_topic inbound :
  Forall (fun p => match p with
                   | AppMachine.Publish topic _ =>
                       topic = AppMachine.snapshotTopic machineId
                   end) (lifetime inbound).
Proof.
  unfold AppMachine.lifetime, AppMachine.wireAppMachineToBroker. simpl.
  constructor; [done |].
  match goal with |- context [broadcasts ?a inbound] => generalize a end.
  induction inbound as [| i rest IH]; intros a; simpl; [constructor |].
  destruct i as [data |]; simpl.
  - unfold AppMachine.onEvent. simpl.
    destruct (transition (AppMachine.actorSnapshot a) (event data)); simpl.
    + constructor; [done | apply IH].
    + apply IH.
  - constructor; [done | apply IH].
Qed.

(** C4.  When the transition on the current authoritative state and the
    delivered action yields [s'], the adapter's event handler stores [s'],
    raises the version counter by one and makes exactly one publication, on
    the snapshot topic, carrying [s'], the new counter and the envelope's id
    as acknowledgment.  Over the adapter's whole life, for any sequence of
    delivered envelopes and snapshot requests, the versions of all its
    broadcasts (the initial one, those triggered by actions and those
    triggered by snapshot requests) are strictly increasing, and the
    initial broadcast has version 1.  The counter lives in the adapter's
    state only: a client's effects ([Effect]) carry no version. *)
Theorem C4_adapter_broadcasts_once_with_next_version :
  (∀ (a : Adapter) (data : TrackedEvent TEvent) s',
     transition (AppMachine.actorSnapshot a) (event data) = Normal s' →
     onEvent a data =
       ({| AppMachine.actorSnapshot := s';
           AppMachine.serverSeqCounter := AppMachine.serverSeqCounter a + 1;
           AppMachine.lastClientSeq := Some (clientSeq data) |},
        [AppMachine.Publish (AppMachine.snapshotTopic machineId)
           (mkRemoteSnapshot s' (AppMachine.serverSeqCounter a + 1)
              (Some (clientSeq data)))],
        Normal tt)) ∧
  (∀ inbound, StronglySorted Z.lt (version <$> lifetime inbound)) ∧
  (∀ inbound, head (version <$> lifetime inbound) = Some 1).
Proof.
  split; [| split].
  - intros a data s' Hs. unfold AppMachine.onEvent. simpl. by rewrite Hs.
  - apply lifetime_sorted.
  - done.
Qed.

End AdapterFacts.

(** C4 on the counter host: the first [inc] with id 1 after start-up. *)
Lemma C4_witness :
  let a := (AppMachine.wireAppMachineToBroker 0 "app").1 in
  AppMachine.onEvent Scenario.counterTransition "app" a (mkTracked "inc" 1) =
    (AppMachine.mkAdapter 1 2 (Some 1),
     [AppMachine.Publish "machine:app:snapshot"
        (mkRemoteSnapshot 1 2 (Some 1))],
     Normal tt).
Proof.
  intros a.
  destruct (C4_adapter_broadcasts_once_with_next_version 0
              Scenario.counterTransition "app") as [Honce _].
  apply (Honce a (mkTracked "inc" 1) 1). reflexivity.
Defined.



(** ** The relay *)

Section RelayFacts.
Variable behaviour : HandlerId → JsValue → Completion unit.
Implicit Types (b : PubSubBroker) (topic : string) (data : JsValue).
Implicit Types (h : HandlerId) (hs : list HandlerId) (ops : list RelayOp).

Lemma publish_state b topic data :
  (publish behaviour b topic data).1.1 =
    if includes topic ":snapshot"
    then {| webviews := webviews b;
            retainedSnapshots := <[topic := data]> (retainedSnapshots b);
            topicHandlers := topicHandlers b |}
    else b.
Proof.
  unfold publish.
  destruct (includes topic ":snapshot"); simpl;
    (destruct (topicHandlers b !! topic) as [hs |]; [| done]);
    destruct (forEachHandler behaviour hs data) as [acts [u | x]]; done.
Qed.

Lemma subscribe_retained b topic h :
  retainedSnapshots (subscribe behaviour b topic h).1.1 = retainedSnapshots b.
Proof.
  unfold subscribe. destruct (retainedSnapshots b !! topic) as [d |]; [| done].
  by destruct (truthy d).
Qed.

Lemma unsubscribe_retained b topic h :
  retainedSnapshots (unsubscribe b topic h) = retainedSnapshots b.
Proof. unfold unsubscribe. by destruct (topicHandlers b !! topic). Qed.

(** Only [publish] on a retaining topic writes the retained value. *)
Lemma relayStep_retained b op topic :
  retainedSnapshots (relayStep behaviour b op) !! topic =
    match op with
    | OpPublish topic' data =>
        if includes topic' ":snapshot"
        then if decide (topic' = topic) then Some data
             else retainedSnapshots b !! topic
        else retainedSnapshots b !! topic
    | OpClear topic' =>
        if decide (topic' = topic) then None
        else retainedSnapshots b !! topic
    | _ => retainedSnapshots b !! topic
    end.
Proof.
  destruct op as [t h | t h | t d | panel | panel | t]; simpl.
  - by rewrite subscribe_retained.
  - by rewrite unsubscribe_retained.
  - rewrite publish_state. destruct (includes t ":snapshot"); [| done].
    simpl. apply lookup_insert.
  - done.
  - done.
  - apply lookup_delete.
Qed.

Lemma relayRun_retained ops : ∀ b topic,
  includes topic ":snapshot" = true →
  retainedSnapshots (relayRun behaviour b ops) !! topic =
    lastPublished topic ops (retainedSnapshots b !! topic).
Proof.
  induction ops as [| op rest IH]; intros b topic Hret; [done |].
  unfold relayRun in *. simpl. rewrite IH by done.
  rewrite relayStep_retained.
  destruct op as [t h | t h | t d | panel | panel | t]; try done.
  destruct (decide (t = topic)) as [-> | Hne]; [by rewrite Hret |].
  by destruct (includes t ":snapshot").
Qed.


(** [subscribe] replays a retained value exactly when it is truthy. *)
Lemma subscribe_replay b topic h data :
  retainedSnapshots b !! topic = Some data →
  (subscribe behaviour b topic h).1.2 =
    if truthy data then [Invoke h data] else [].
Proof.
  intros Hret. unfold subscribe. rewrite Hret. by destruct (truthy data).
Qed.

Lemma subscribe_no_retained b topic h :
  retainedSnapshots b !! topic = None →
  (subscribe behaviour b topic h).1.2 = [].
Proof. intros Hret. unfold subscribe. by rewrite Hret. Qed.

(** The webview adapter's listener calls every handler of the topic. *)
Lemma forEachIsolated_all topic hs data h :
  h ∈ hs → Invoke h data ∈ forEachIsolated behaviour topic hs data.
Proof.
  induction hs as [| h' rest IH]; intros Hin; [by inversion Hin |].
  simpl. apply elem_of_cons in Hin as [-> | Hin].
  - destruct (behaviour h' data); apply list_elem_of_here.
  - destruct (behaviour h' data); repeat apply list_elem_of_further;
      by apply IH.
Qed.

(** The broker's [publish] calls the handlers up to and including the first
    one that throws, and none after it. *)
Lemma forEachHandler_stops hs1 h hs2 data x :
  Forall (fun h' => ∃ u, behaviour h' data = Normal u) hs1 →
  behaviour h data = Throw x →
  forEachHandler behaviour (hs1 ++ h :: hs2) data =
    ((fun h' => Invoke h' data) <$> (hs1 ++ [h]), Throw x).
Proof.
  intros Hquiet Hthrow. induction Hquiet as [| h' rest [u Hu] _ IH]; simpl.
  - by rewrite Hthrow.
  - rewrite Hu, IH. done.
Qed.

End RelayFacts.



(** C8: the code at the failing input.  Handlers 1 and 2 are attached to one
    topic, in this order, and handler 1 throws.  [PubSubBroker.publish] calls
    handler 1 only: the exception leaves [publish], handler 2 is never called
    and the attached webview gets no message.  The listener of
    [WebviewPubSubAdapter] on the same handlers calls both and logs the
    error. *)
Theorem C8_broker_publish_stops_at_throwing_handler :
  let topic := "machine:app:events" in
  let data := JsObj [("clientSeq", JsNum 1)] in
  let b := relayRun Scenario.firstThrows createBroker
             [OpAttach 0%nat; OpSubscribe topic 1%nat; OpSubscribe topic 2%nat] in
  let a := adapterSubscribe (adapterSubscribe (mkWebviewAdapter ∅) topic 1%nat)
             topic 2%nat in
  topicHandlers b !! topic = Some [1%nat; 2%nat] ∧
  subscriptions a !! topic = Some [1%nat; 2%nat] ∧
  publish Scenario.firstThrows b topic data =
    (b, [Invoke 1%nat data], Throw (JsStr "handler failed")) ∧
  (Invoke 2%nat data ∉ (publish Scenario.firstThrows b topic data).1.2) ∧
  messageListener Scenario.firstThrows a
    (Some (mkMessage MsgPublish topic data)) =
    [Invoke 1%nat data; ConsoleError topic (JsStr "handler failed");
     Invoke 2%nat data].
Proof.
  intros topic data b a.
  assert (topicHandlers b !! topic = Some [1%nat; 2%nat]) as Hb
    by (by vm_compute).
  assert (subscriptions a !! topic = Some [1%nat; 2%nat]) as Ha
    by (by vm_compute).
  assert (publish Scenario.firstThrows b topic data =
            (b, [Invoke 1%nat data], Throw (JsStr "handler failed"))) as Hpub.
  { by vm_compute. }
  split; [exact Hb |]. split; [exact Ha |]. split; [exact Hpub |]. split.
  - rewrite Hpub. simpl. intros Hin%list_elem_of_In. simpl in Hin.
    destruct Hin as [Heq | []]. discriminate.
  - by vm_compute.
Qed.

(** ** Adapter, relay and client together *)

Lemma includes_unfold s needle :
  includes s needle =
    String.prefix needle s ||
    match s with
    | EmptyString => false
    | String _ rest => includes rest needle
    end.
Proof. by destruct s. Qed.

Lemma includes_app_r s1 s2 needle :
  includes s2 needle = true → includes (s1 +:+ s2) needle = true.
Proof.
  intros H. induction s1 as [| a s1 IH]; [done |].
  rewrite includes_unfold. simpl. rewrite IH. apply orb_true_r.
Qed.

(** The relay retains what the adapter broadcasts, whatever the machine id. *)
Lemma snapshotTopic_retained machineId :
  includes (AppMachine.snapshotTopic machineId) ":snapshot" = true.
Proof.
  unfold AppMachine.snapshotTopic. by do 2 apply includes_app_r.
Qed.

(** The scenario of the specification, with the adapter's initial broadcast
    counted: the host starts at [{count: 0}] (version 1); a client sends
    ["inc"] with id 1; the adapter answers with [{count: 1}], version 2,
    acknowledging id 1; on receipt the client's queue is empty, it is
    connected, and it shows [{count: 1}]. *)
Example end_to_end_acknowledgment :
  let '(client, sent) :=
    Store.send (Store.useRemoteMachine Scenario.countingOptions) "inc" in
  let host := (AppMachine.wireAppMachineToBroker (Scenario.countObject 0)
                 "app").1 in
  let '(_, pubs, _) :=
    AppMachine.onEvent Scenario.countTransition "app" host
      (mkTracked "inc" 1) in
  let client' := Store.run Scenario.countingOptions client
                   (InSnapshot <$> (AppMachine.payloadOf <$> pubs)) in
  sent = [PublishEvent "inc" 1] ∧
  (AppMachine.payloadOf <$> pubs) =
    [mkRemoteSnapshot (Scenario.countObject 1) 2 (Some 1)] ∧
  Store.pendingEvents client' = [] ∧
  Store.connected client' = true ∧
  Store.state Scenario.countingOptions client' =
    ([], Normal (Scenario.countObject 1)).
Proof. simpl. repeat split. Qed.

(** * Further properties of the client *)

Section ClientExtras.
Context {TEvent : Type}.
Implicit Types (c : Store.Client TEvent) (rs : RemoteSnapshot JsValue).
Implicit Types (options : Options TEvent) (inputs : list (Input TEvent)).



Lemma sorted_ids_filter (P : TrackedEvent TEvent → Prop)
    `{!∀ e, Decision (P e)} (l : list (TrackedEvent TEvent)) :
  StronglySorted Z.lt (clientSeq <$> l) →
  StronglySorted Z.lt (clientSeq <$> filter P l).
Proof.
  induction l as [| e rest IH]; [done |].
  rewrite fmap_cons, StronglySorted_cons. intros [Hhd Htl].
  rewrite filter_cons. destruct (decide (P e)); [| by apply IH].
  rewrite fmap_cons. apply StronglySorted_cons. split; [| by apply IH].
  apply Forall_fmap, Forall_forall. intros e' [_ Hin]%list_elem_of_filter.
  rewrite Forall_fmap, Forall_forall in Hhd. by apply Hhd.
Qed.

Lemma store_step_ordered options c i :
  pendingOrdered c → pendingOrdered (Store.step options c i).1.
Proof.
  intros (Hsorted & Hbound & Hpos). destruct i as [rs | ev |]; simpl.
  - unfold Store.handleSnapshot.
    destruct (serverSeq rs <=? Store.lastServerSeq c); [done |].
    destruct (echoClientSeq rs) as [echo |]; [| done].
    split; [| split]; simpl; [by apply sorted_ids_filter | | done].
    apply Forall_forall. intros e [_ Hin]%list_elem_of_filter.
    rewrite Forall_forall in Hbound. by apply Hbound.
  - split; [| split]; simpl; [| | lia].
    + rewrite fmap_app. apply StronglySorted_app_2; [| done |].
      * intros x1 x2 Hx1 ->%list_elem_of_singleton.
        apply list_elem_of_fmap in Hx1 as (e & -> & Hin).
        rewrite Forall_forall in Hbound. specialize (Hbound e Hin).
        simpl. lia.
      * repeat constructor.
    + apply Forall_app. split.
      * eapply Forall_impl; [exact Hbound |]. simpl. intros; lia.
      * repeat constructor; simpl; lia.
  - done.
Qed.

Lemma store_run_ordered options inputs : ∀ c,
  pendingOrdered c → pendingOrdered (Store.run options c inputs).
Proof.
  induction inputs as [| i rest IH]; intros c Hc; [done |].
  simpl. by apply IH, store_step_ordered.
Qed.

Lemma store_init_ordered options :
  pendingOrdered (Store.useRemoteMachine options).
Proof. split; [| split]; simpl; [constructor | constructor | lia]. Qed.

(** Whatever is delivered and sent, the pending queue of a client stays in
    issuance order: the ids in it are strictly increasing from front to back
    (so no id is queued twice) and each lies between 1 and the last id
    issued. *)
Theorem pending_queue_in_issuance_order options inputs :
  let c := Store.run options (Store.useRemoteMachine options) inputs in
  StronglySorted Z.lt (clientSeq <$> Store.pendingEvents c) ∧
  NoDup (clientSeq <$> Store.pendingEvents c) ∧
  Forall (fun e => 1 ≤ clientSeq e ≤ Store.clientSeqCounter c)
    (Store.pendingEvents c).
Proof.
  intros c.
  destruct (store_run_ordered options inputs _ (store_init_ordered options))
    as (Hsorted & Hbound & _).
  fold c in Hsorted, Hbound. split; [done |]. split.
  - clear Hbound. induction Hsorted as [| x l _ IH Hx]; constructor; [| done].
    intros Hin. rewrite Forall_forall in Hx. specialize (Hx x Hin). lia.
  - eapply Forall_impl; [exact Hbound |]. simpl. intros; lia.
Qed.

Lemma filter_all (P : TrackedEvent TEvent → Prop) `{!∀ e, Decision (P e)}
    (l : list (TrackedEvent TEvent)) :
  Forall P l → filter P l = l.
Proof.
  induction 1 as [| e rest He _ IH]; [done |].
  rewrite filter_cons. destruct (decide (P e)); [by rewrite IH | done].
Qed.

Lemma retire_is_drop (l : list (TrackedEvent TEvent)) N :
  StronglySorted Z.lt (clientSeq <$> l) →
  ∃ k, filter (fun e => N < clientSeq e) l = drop k l ∧
       Forall (fun e => clientSeq e ≤ N) (take k l).
Proof.
  induction l as [| e rest IH]; [by exists 0%nat |].
  rewrite fmap_cons, StronglySorted_cons. intros [Hhd Htl].
  destruct (decide (N < clientSeq e)) as [Hgt | Hle].
  - exists 0%nat. split; [| constructor]. simpl.
    apply filter_all. constructor; [done |].
    rewrite Forall_fmap in Hhd.
    eapply Forall_impl; [exact Hhd |]. simpl. intros; lia.
  - destruct (IH Htl) as (k & Hdrop & Htake). exists (S k). simpl.
    rewrite filter_cons. destruct (decide (N < clientSeq e)); [done |].
    split; [done |]. constructor; [lia | done].
Qed.

(** Retirement takes entries off the front only.  On a client reached from a
    new one, accepting a broadcast that acknowledges [N] leaves a suffix of
    the pending queue: some number [k] of the oldest entries, all with id at
    most [N], are gone and the rest is untouched. *)
Theorem acknowledgment_retires_a_prefix options inputs rs N :
  let c := Store.run options (Store.useRemoteMachine options) inputs in
  Store.lastServerSeq c < serverSeq rs →
  echoClientSeq rs = Some N →
  ∃ k, Store.pendingEvents (Store.handleSnapshot options c rs).1 =
         drop k (Store.pendingEvents c) ∧
       Forall (fun e => clientSeq e ≤ N) (take k (Store.pendingEvents c)).
Proof.
  intros c Hlt Hecho.
  rewrite (store_pending_after_ack options c rs N) by done.
  apply retire_is_drop.
  apply (store_run_ordered options inputs _ (store_init_ordered options)).
Qed.


(** Delivering the same broadcast a second time changes nothing and has no
    effect, whether or not the first delivery was accepted. *)
Theorem duplicate_delivery_is_idempotent options c rs :
  let c' := (Store.handleSnapshot options c rs).1 in
  Store.handleSnapshot options c' rs = (c', []).
Proof.
  intros c'. apply store_stale. subst c'. unfold Store.handleSnapshot.
  destruct (Z.leb_spec (serverSeq rs) (Store.lastServerSeq c)); simpl; lia.
Qed.
End ClientExtras.

Section ClientConnection.
Context {TEvent : Type}.
Implicit Types (c : Store.Client TEvent) (rs : RemoteSnapshot JsValue).
Implicit Types (options : Options TEvent) (inputs : list (Input TEvent)).



Lemma store_stale_run options inputs : ∀ c,
  Forall (fun rs => serverSeq rs ≤ Store.lastServerSeq c) (deliveries inputs) →
  Store.baseState (Store.run options c inputs) = Store.baseState c ∧
  Store.lastServerSeq (Store.run options c inputs) = Store.lastServerSeq c.
Proof.
  induction inputs as [| i rest IH]; intros c Hall; [done |].
  destruct i as [rs | ev |]; simpl in *.
  - apply Forall_cons in Hall as [Hrs Hall].
    rewrite store_stale by done. by apply IH.
  - by apply (IH (Store.send c ev).1).
  - by apply IH.
Qed.

(** The version, not the delivery order, decides what a client ends up with.
    Let the broadcasts be delivered in any order, any number of times, mixed
    with [send] and [requestSnapshot] calls.  If [rs] is among them, is newer
    than anything the client had seen before, and every other delivered
    broadcast has a lower version, then the client ends with [rs]'s snapshot
    as confirmed state and [rs]'s version as highest version seen. *)
Theorem newest_broadcast_wins options inputs rs : ∀ c,
  rs ∈ deliveries inputs →
  Store.lastServerSeq c < serverSeq rs →
  (∀ rs', rs' ∈ deliveries inputs → serverSeq rs' < serverSeq rs ∨ rs' = rs) →
  Store.baseState (Store.run options c inputs) = snapshot rs ∧
  Store.lastServerSeq (Store.run options c inputs) = serverSeq rs.
Proof.
  induction inputs as [| i rest IH]; intros c Hin Hnew Hmax.
  { by apply elem_of_nil in Hin. }
  destruct i as [rs0 | ev |]; simpl in *.
  - destruct (Hmax rs0) as [Hlt | ->]; [apply list_elem_of_here | |].
    + apply elem_of_cons in Hin as [-> | Hin]; [lia |].
      apply IH; [done | |].
      * unfold Store.handleSnapshot.
        destruct (serverSeq rs0 <=? Store.lastServerSeq c); simpl; lia.
      * intros rs' Hrs'. apply Hmax. by apply list_elem_of_further.
    + pose proof (store_fresh options c rs Hnew) as Hc'.
      destruct (store_stale_run options rest
                  (Store.handleSnapshot options c rs).1) as [Hb Hl].
      * rewrite Hc'. simpl. apply Forall_forall. intros rs' Hrs'.
        destruct (Hmax rs') as [? | ->]; [by apply list_elem_of_further | |];
          lia.
      * rewrite Hb, Hl, Hc'. done.
  - by apply (IH (Store.send c ev).1).
  - by apply IH.
Qed.
End ClientConnection.

Section ClientVariants.
Context {TEvent : Type}.
Implicit Types (options : Options TEvent) (inputs : list (Input TEvent)).
Implicit Types (runes : Runes.RuneUtils) (r : Reducer TEvent).


(** [pendingCount] of the rune client is the length of the pending queue
    after every run from a new client, also when [derived] is missing and the
    count is a cell that [send] and [handleSnapshot] keep up to date by
    hand. *)
Theorem rune_pending_count_is_queue_length runes options inputs :
  let c := Runes.run runes options
             (Runes.useRemoteMachineRunes runes options) inputs in
  Runes.pendingCountRune runes c = length (Runes.pendingEventsRune c).
Proof.
  intros c. subst c.
  destruct (Runes.derived runes) eqn:Hd.
  - unfold Runes.pendingCountRune. by rewrite Hd.
  - by apply runes_manual_count.
Qed.

Lemma reduce_calls r (pending : list (TrackedEvent TEvent)) : ∀ acc,
  let calls := (reduce r pending acc).1 in
  let res := (reduce r pending acc).2 in
  calls.*2 `prefix_of` (event <$> pending) ∧
  (∀ v, res = Normal v → calls.*2 = event <$> pending) ∧
  (∀ call, head calls = Some call → call.1 = acc) ∧
  (∀ i s e s' e',
     calls !! i = Some (s, e) → calls !! S i = Some (s', e') →
     r s e = Normal s') ∧
  (∀ s e, last calls = Some (s, e) → r s e = res) ∧
  (calls = [] → res = Normal acc).
Proof.
  induction pending as [| ev rest IH]; intros acc; cbv zeta; simpl.
  { repeat split; try done. }
  destruct (r acc (event ev)) as [acc' | x] eqn:Hr.
  - specialize (IH acc'). cbv zeta in IH.
    destruct (reduce r rest acc') as [calls res].
    destruct IH as (Hpre & Hall & Hhead & Hchain & Hlast & Hnil). simpl in *.
    repeat split.
    + by apply prefix_cons.
    + intros v Hv. f_equal. by apply (Hall v).
    + intros call [= <-]. done.
    + intros [| i] s e s' e'; simpl.
      * intros [= <- <-] Hnext. destruct calls as [| [s0 e0] calls]; [done |].
        simpl in Hnext. injection Hnext as -> ->.
        specialize (Hhead (s', e') eq_refl). simpl in Hhead. by subst.
      * apply Hchain.
    + intros s e. destruct calls as [| call calls]; simpl.
      * intros [= <- <-]. by rewrite Hnil.
      * apply Hlast.
    + done.
  - simpl. repeat split.
    + apply prefix_cons, prefix_nil.
    + done.
    + intros call [= <-]. done.
    + intros [| i] s e s' e'; done.
    + by intros s e [= <- <-].
    + done.
Qed.

(** The recomputation hands the pending events to the reducer one by one in
    issuance order, each at most once: the first application gets the
    confirmed state, every further one gets the value the previous one
    returned, the outcome of the last one is the outcome of the whole, and
    nothing is applied after an application that throws.  If the
    recomputation yields a value from a truthy confirmed state, every pending
    event was applied exactly once. *)
Theorem reducer_applied_in_issuance_order r base
    (pending : list (TrackedEvent TEvent)) :
  let calls := (deriveState (Some r) base pending).1 in
  let res := (deriveState (Some r) base pending).2 in
  calls.*2 `prefix_of` (event <$> pending) ∧
  (∀ v, truthy base = true → res = Normal v →
        calls.*2 = event <$> pending) ∧
  (∀ call, head calls = Some call → call.1 = base) ∧
  (∀ i s e s' e',
     calls !! i = Some (s, e) → calls !! S i = Some (s', e') →
     r s e = Normal s') ∧
  (∀ s e, last calls = Some (s, e) → r s e = res).
Proof.
  cbv zeta. unfold deriveState.
  destruct (truthy base); simpl.
  2: { repeat split; try done. apply prefix_nil. }
  destruct pending as [| ev rest].
  { simpl. repeat split; done. }
  change (length (ev :: rest) =? 0)%nat with false. cbv iota.
  destruct (reduce_calls r (ev :: rest) base)
    as (Hpre & Hall & Hhead & Hchain & Hlast & _).
  repeat split; try done. intros v _. apply Hall.
Qed.

(** [send] shows its prediction at once.  With a reducer that computes [p]
    and a truthy confirmed state, the visible state after [send ev] is [p]
    applied to the visible state before and [ev]; the confirmed state, the
    connected flag and the highest version seen are as before. *)
Theorem send_extends_prediction options r (p : JsValue → TEvent → JsValue)
    (c : Store.Client TEvent) (ev : TEvent) (v : JsValue) :
  optimistic options = Some r →
  computes r p →
  truthy (Store.baseState c) = true →
  (Store.state options c).2 = Normal v →
  (Store.state options (Store.send c ev).1).2 = Normal (p v ev) ∧
  Store.baseState (Store.send c ev).1 = Store.baseState c ∧
  Store.connected (Store.send c ev).1 = Store.connected c ∧
  Store.lastServerSeq (Store.send c ev).1 = Store.lastServerSeq c.
Proof.
  intros Hopt Hp Hb Hv. split; [| done].
  unfold Store.state in *. rewrite Hopt in *. simpl.
  rewrite (deriveState_computes r p) in Hv by done.
  rewrite (deriveState_computes r p) by done.
  rewrite foldl_snoc. simpl. by injection Hv as ->.
Qed.
End ClientVariants.

(** * Further properties of the relay *)

Section RelayExtras.
Variable behaviour : HandlerId → JsValue → Completion unit.
Implicit Types (b : PubSubBroker) (topic : string) (data : JsValue).
Implicit Types (h : HandlerId) (hs : list HandlerId) (ops : list RelayOp).

Lemma subscribe_state b topic h :
  (subscribe behaviour b topic h).1.1 =
    {| webviews := webviews b;
       retainedSnapshots := retainedSnapshots b;
       topicHandlers :=
         <[topic := setAdd h (handlersOf (topicHandlers b) topic)]>
           (topicHandlers b) |}.
Proof.
  unfold subscribe. destruct (retainedSnapshots b !! topic) as [d |]; [| done].
  by destruct (truthy d).
Qed.

Lemma setAdd_spec h hs :
  NoDup hs →
  NoDup (setAdd h hs) ∧ setAdd h hs ≠ [] ∧
  (∀ h', h' ∈ setAdd h hs ↔ h' = h ∨ h' ∈ hs).
Proof.
  intros Hnd. unfold setAdd. destruct (decide (h ∈ hs)) as [Hin | Hout].
  - split; [done |]. split; [by destruct hs; [inversion Hin |] |].
    intros h'. split; [by right |]. by intros [-> | ?].
  - split; [| split].
    + apply NoDup_app. split; [done |]. split; [| apply NoDup_singleton].
      intros x Hx ->%list_elem_of_singleton. done.
    + by destruct hs.
    + intros h'. rewrite elem_of_app, list_elem_of_singleton. tauto.
Qed.

Lemma setDelete_spec h hs :
  NoDup hs →
  NoDup (setDelete h hs) ∧ (∀ h', h' ∈ setDelete h hs ↔ h' ≠ h ∧ h' ∈ hs).
Proof.
  intros Hnd. split; [by apply NoDup_filter |].
  intros h'. unfold setDelete. by rewrite list_elem_of_filter.
Qed.

Lemma handlers_insert_wf (m : gmap string (list HandlerId)) topic hs :
  handlersWellFormed m → hs ≠ [] → NoDup hs →
  handlersWellFormed (<[topic := hs]> m).
Proof.
  intros Hm Hne Hnd t hs'. rewrite lookup_insert.
  destruct (decide (topic = t)); [by intros [= <-] | apply Hm].
Qed.

Lemma handlers_delete_wf (m : gmap string (list HandlerId)) topic :
  handlersWellFormed m → handlersWellFormed (delete topic m).
Proof.
  intros Hm t hs'. rewrite lookup_delete.
  destruct (decide (topic = t)); [done | apply Hm].
Qed.

Lemma relayStep_wf b op :
  brokerWellFormed b → brokerWellFormed (relayStep behaviour b op).
Proof.
  intros (Hh & Hw & Hr).
  destruct op as [t h | t h | t d | panel | panel | t]; simpl.
  - rewrite subscribe_state. split; [| done]. simpl.
    unfold handlersOf.
    destruct (topicHandlers b !! t) as [hs |] eqn:Hl; simpl.
    + destruct (Hh t hs Hl) as [_ Hnd].
      destruct (setAdd_spec h hs Hnd) as (? & ? & _).
      by apply handlers_insert_wf.
    + destruct (setAdd_spec h [] (NoDup_nil_2)) as (? & ? & _).
      by apply handlers_insert_wf.
  - unfold unsubscribe.
    destruct (topicHandlers b !! t) as [hs |] eqn:Hl; [| done].
    split; [| done]. simpl.
    destruct (Hh t hs Hl) as [_ Hnd].
    destruct (setDelete_spec h hs Hnd) as [Hnd' _].
    destruct (setDelete h hs) as [| h0 hs0] eqn:Hdel; simpl.
    + by apply handlers_delete_wf.
    + by apply handlers_insert_wf.
  - rewrite publish_state. destruct (includes t ":snapshot") eqn:Hinc; [| done].
    split; [done |]. split; [done |]. simpl.
    intros t' d'. rewrite lookup_insert.
    destruct (decide (t = t')) as [<- | Hne]; [done | apply Hr].
  - split; [done |]. split; [| done]. simpl.
    by destruct (setAdd_spec panel (webviews b) Hw).
  - split; [done |]. split; [| done]. simpl.
    by destruct (setDelete_spec panel (webviews b) Hw).
  - split; [done |]. split; [done |]. simpl.
    intros t' d'. rewrite lookup_delete.
    destruct (decide (t = t')); [done | apply Hr].
Qed.

Lemma relayRun_wf ops :
  brokerWellFormed (relayRun behaviour createBroker ops).
Proof.
  assert (∀ b, brokerWellFormed b →
               brokerWellFormed (relayRun behaviour b ops)) as Hrun.
  { induction ops as [| op rest IH]; intros b Hb; [done |].
    unfold relayRun in *. simpl. by apply IH, relayStep_wf. }
  apply Hrun. split; [| split]; simpl.
  - intros t hs. by rewrite lookup_empty.
  - constructor.
  - intros t d. by rewrite lookup_empty.
Qed.

(** Whatever calls a relay has served since it was created, it never keeps a
    topic with an empty handler set, never holds a handler twice for a topic
    nor a panel twice, and retains a payload only for topics whose name
    contains [":snapshot"]. *)
Theorem relay_stays_well_formed ops :
  brokerWellFormed (relayRun behaviour createBroker ops).
Proof. apply relayRun_wf. Qed.

(** What [getRetainedSnapshot] returns is decided by the calls alone: on a
    relay created empty it is the payload of the last [publish] on the topic
    that no [clearRetainedSnapshot] on the topic has followed, provided the
    topic name contains [":snapshot"]; for any other topic it is nothing,
    whatever was published. *)
Theorem retained_is_last_published ops topic :
  getRetainedSnapshot (relayRun behaviour createBroker ops) topic =
    if includes topic ":snapshot" then lastPublished topic ops None
    else None.
Proof.
  unfold getRetainedSnapshot.
  destruct (includes topic ":snapshot") eqn:Hinc.
  - rewrite relayRun_retained by done. simpl. by rewrite lookup_empty.
  - destruct (relayRun_wf ops) as (_ & _ & Hr).
    destruct (retainedSnapshots _ !! topic) as [d |] eqn:Hl; [| done].
    specialize (Hr topic d Hl). congruence.
Qed.
Lemma forEachHandler_quiet hs data :
  Forall (fun h => ∃ u, behaviour h data = Normal u) hs →
  forEachHandler behaviour hs data =
    ((fun h => Invoke h data) <$> hs, Normal tt).
Proof.
  induction 1 as [| h rest [u Hu] _ IH]; simpl; [done |].
  by rewrite Hu, IH.
Qed.

Lemma forEachHandler_members hs data h d :
  (h, d) ∈ invocations (forEachHandler behaviour hs data).1 →
  h ∈ hs ∧ d = data.
Proof.
  induction hs as [| h0 rest IH]; simpl; [by intros ?%elem_of_nil |].
  destruct (behaviour h0 data).
  - destruct (forEachHandler behaviour rest data) as [acts res]. simpl in *.
    intros [[= -> ->] | Hin]%elem_of_cons.
    + split; [apply list_elem_of_here | done].
    + destruct (IH Hin). split; [by apply list_elem_of_further | done].
  - simpl. intros [[= -> ->] | Hin]%elem_of_cons.
    + split; [apply list_elem_of_here | done].
    + by apply elem_of_nil in Hin.
Qed.

Lemma posts_forEachHandler hs data :
  posts (forEachHandler behaviour hs data).1 = [].
Proof.
  induction hs as [| h0 rest IH]; simpl; [done |].
  destruct (behaviour h0 data); [| done].
  by destruct (forEachHandler behaviour rest data).
Qed.

Lemma posts_of_posts (ps : list PanelId) (m : PubSubMessage) :
  posts (map (fun p => PostMessage p m) ps) = (fun p => (p, m)) <$> ps.
Proof. induction ps as [| p ps IH]; simpl; [done | by f_equal]. Qed.

Lemma invocations_of_posts (ps : list PanelId) (m : PubSubMessage) :
  invocations (map (fun p => PostMessage p m) ps) = [].
Proof. induction ps as [| p ps IH]; simpl; done. Qed.

Lemma publish_actions b topic data :
  ∃ acts res,
    forEachHandler behaviour (handlersOf (topicHandlers b) topic) data =
      (acts, res) ∧
    (publish behaviour b topic data).1.2 =
      acts ++ match res with
              | Normal _ =>
                  map (fun p => PostMessage p (mkMessage MsgPublish topic data))
                    (webviews b)
              | Throw _ => []
              end.
Proof.
  unfold publish, handlersOf.
  assert (∀ b' : PubSubBroker,
            b' = (if includes topic ":snapshot"
                  then {| webviews := webviews b;
                          retainedSnapshots :=
                            <[topic := data]> (retainedSnapshots b);
                          topicHandlers := topicHandlers b |}
                  else b) →
            topicHandlers b' = topicHandlers b ∧ webviews b' = webviews b)
    as Hsame by (intros b' ->; by destruct (includes topic ":snapshot")).
  destruct (Hsame _ eq_refl) as [-> ->].
  destruct (topicHandlers b !! topic) as [hs |]; simpl.
  - destruct (forEachHandler behaviour hs data) as [acts [u | x]];
      eexists _, _; (split; [reflexivity |]); simpl; [done |].
    by rewrite app_nil_r.
  - by eexists _, _.
Qed.

Lemma publish_invocations b topic data h d :
  (h, d) ∈ invocations (publish behaviour b topic data).1.2 →
  h ∈ handlersOf (topicHandlers b) topic ∧ d = data.
Proof.
  destruct (publish_actions b topic data) as (acts & res & Hacts & ->).
  unfold invocations. rewrite omap_app.
  fold (invocations acts).
  assert (acts = (forEachHandler behaviour
                    (handlersOf (topicHandlers b) topic) data).1) as ->
    by (by rewrite Hacts).
  intros [Hin | Hin]%elem_of_app; [by apply forEachHandler_members |].
  exfalso. destruct res; [| by apply elem_of_nil in Hin].
  fold (invocations
          (map (fun p => PostMessage p (mkMessage MsgPublish topic data))
             (webviews b))) in Hin.
  rewrite invocations_of_posts in Hin. by apply elem_of_nil in Hin.
Qed.

Lemma publish_posts b topic data panel message :
  (panel, message) ∈ posts (publish behaviour b topic data).1.2 →
  panel ∈ webviews b ∧ message = mkMessage MsgPublish topic data.
Proof.
  destruct (publish_actions b topic data) as (acts & res & Hacts & ->).
  unfold posts. rewrite omap_app. fold (posts acts).
  assert (acts = (forEachHandler behaviour
                    (handlersOf (topicHandlers b) topic) data).1) as ->
    by (by rewrite Hacts).
  rewrite posts_forEachHandler, app_nil_l.
  destruct res; [| by intros ?%elem_of_nil].
  fold (posts (map (fun p => PostMessage p (mkMessage MsgPublish topic data))
                 (webviews b))).
  rewrite posts_of_posts.
  intros (p & [= -> ->] & Hin)%list_elem_of_fmap. done.
Qed.

(** When no handler of the topic throws, [publish] calls every handler
    registered for the topic exactly once, in registration order, then posts
    the message to every attached panel, in attachment order, and returns
    normally. *)
Theorem publish_reaches_every_handler_and_panel b topic data :
  Forall (fun h => ∃ u, behaviour h data = Normal u)
    (handlersOf (topicHandlers b) topic) →
  (publish behaviour b topic data).1.2 =
    ((fun h => Invoke h data) <$> handlersOf (topicHandlers b) topic) ++
    ((fun p => PostMessage p (mkMessage MsgPublish topic data)) <$>
       webviews b) ∧
  (publish behaviour b topic data).2 = Normal tt.
Proof.
  unfold publish, handlersOf.
  assert (∀ b' : PubSubBroker,
            b' = (if includes topic ":snapshot"
                  then {| webviews := webviews b;
                          retainedSnapshots :=
                            <[topic := data]> (retainedSnapshots b);
                          topicHandlers := topicHandlers b |}
                  else b) →
            topicHandlers b' = topicHandlers b ∧ webviews b' = webviews b)
    as Hsame by (intros b' ->; by destruct (includes topic ":snapshot")).
  destruct (Hsame _ eq_refl) as [-> ->].
  destruct (topicHandlers b !! topic) as [hs |]; simpl; [| done].
  intros Hq. by rewrite (forEachHandler_quiet hs data Hq).
Qed.

(** Subscribing a handler that was not registered for the topic and calling
    the returned function puts the relay back exactly as it was: the same
    handlers in the same order, and no trace of the topic if it had no
    handlers before. *)
Theorem subscribe_then_unsubscribe_restores b topic h :
  handlersWellFormed (topicHandlers b) →
  h ∉ handlersOf (topicHandlers b) topic →
  unsubscribe (subscribe behaviour b topic h).1.1 topic h = b.
Proof.
  intros Hwf Hout. rewrite subscribe_state. unfold unsubscribe. simpl.
  rewrite lookup_insert_eq. unfold handlersOf in *.
  destruct b as [ws ret m]. simpl in *. f_equal.
  destruct (m !! topic) as [hs |] eqn:Hl; simpl in *.
  - destruct (Hwf topic hs Hl) as [Hne _].
    unfold setAdd. destruct (decide (h ∈ hs)); [done |].
    unfold setDelete. rewrite filter_app, filter_cons, filter_nil.
    destruct (decide (h ≠ h)); [done |]. rewrite app_nil_r.
    assert (filter (fun h' => h' ≠ h) hs = hs) as ->.
    { clear -Hout. induction hs as [| h0 rest IH]; [done |].
      rewrite filter_cons. apply not_elem_of_cons in Hout as [Hne Hout].
      destruct (decide (h0 ≠ h)); [by rewrite IH | done]. }
    destruct hs; [done |]. simpl.
    rewrite insert_insert_eq. by apply insert_id.
  - unfold setAdd, setDelete. simpl. rewrite filter_cons, filter_nil.
    destruct (decide (h ≠ h)); [done |]. simpl.
    rewrite delete_insert_eq. by apply delete_id.
Qed.

(** Calling the function returned by [subscribe] ends delivery to that
    handler and to no other: a following [publish] on the topic never calls
    the handler, while every other handler of the topic stays registered. *)
Theorem unsubscribe_stops_delivery b topic h :
  (∀ data d,
     (h, d) ∉ invocations
                (publish behaviour (unsubscribe b topic h) topic data).1.2) ∧
  (∀ h', h' ≠ h →
         h' ∈ handlersOf (topicHandlers b) topic →
         h' ∈ handlersOf (topicHandlers (unsubscribe b topic h)) topic).
Proof.
  assert (∀ h', h' ∈ handlersOf (topicHandlers (unsubscribe b topic h)) topic
                ↔ h' ≠ h ∧ h' ∈ handlersOf (topicHandlers b) topic) as Hmem.
  { intros h'. unfold unsubscribe, handlersOf.
    destruct (topicHandlers b !! topic) as [hs |] eqn:Hl; simpl.
    - pose proof (list_elem_of_filter (fun h' => h' ≠ h) hs h') as Hf.
      fold (setDelete h hs) in Hf.
      destruct (setDelete h hs) as [| h0 hs0] eqn:Hdel; simpl.
      + by rewrite lookup_delete_eq.
      + by rewrite lookup_insert_eq.
    - rewrite Hl. simpl. split; [by intros ?%elem_of_nil | by intros [_ ?]]. }
  split.
  - intros data d [Hin _]%publish_invocations. apply Hmem in Hin as [? _].
    done.
  - intros h' Hne Hin. by apply Hmem.
Qed.


(** A panel's life at the relay.  Attaching a panel posts to it exactly the
    retained payloads, one message of type publish per retaining topic, and
    calls no handler.  After the function returned by [attachWebviewPanel]
    has been called, a [publish] posts nothing to that panel. *)
Theorem panel_replay_and_detach b panel :
  (∀ topic data,
     (panel, mkMessage MsgPublish topic data) ∈
       posts (attachWebviewPanel b panel).2 ↔
     retainedSnapshots b !! topic = Some data) ∧
  length (attachWebviewPanel b panel).2 = size (retainedSnapshots b) ∧
  invocations (attachWebviewPanel b panel).2 = [] ∧
  (∀ topic data message,
     (panel, message) ∉
       posts (publish behaviour (detachWebviewPanel b panel) topic data).1.2).
Proof.
  unfold attachWebviewPanel. simpl. repeat split.
  - intros Hin. apply elem_of_map_to_list.
    induction (map_to_list (retainedSnapshots b)) as [| [t d] rest IH];
      simpl in *; [by apply elem_of_nil in Hin |].
    apply elem_of_cons in Hin as [[= -> ->] | Hin];
      [apply list_elem_of_here | by apply list_elem_of_further, IH].
  - intros Hl. apply elem_of_map_to_list in Hl.
    induction (map_to_list (retainedSnapshots b)) as [| [t d] rest IH];
      simpl in *; [by apply elem_of_nil in Hl |].
    apply elem_of_cons in Hl as [[= <- <-] | Hl];
      [apply list_elem_of_here | by apply list_elem_of_further, IH].
  - by rewrite length_map, length_map_to_list.
  - induction (map_to_list (retainedSnapshots b)) as [| [t d] rest IH];
      simpl; done.
  - intros topic data message [Hp _]%publish_posts.
    simpl in Hp. unfold setDelete in Hp.
    apply list_elem_of_filter in Hp as [Hne _]. done.
Qed.
End RelayExtras.

(** * Further properties of the webview adapter *)

Section WebviewExtras.
Variable behaviour : HandlerId → JsValue → Completion unit.
Implicit Types (a : WebviewPubSubAdapter) (topic : string) (data : JsValue).
Implicit Types (h : HandlerId) (hs : list HandlerId).

Lemma forEachIsolated_invocations topic hs data :
  invocations (forEachIsolated behaviour topic hs data) =
    (fun h => (h, data)) <$> hs.
Proof.
  induction hs as [| h rest IH]; simpl; [done |].
  destruct (behaviour h data); simpl; by rewrite IH.
Qed.

Lemma forEachIsolated_errors topic hs data :
  consoleErrors (forEachIsolated behaviour topic hs data) =
    omap (fun h => match behaviour h data with
                   | Throw x => Some (topic, x)
                   | Normal _ => None
                   end) hs.
Proof.
  induction hs as [| h rest IH]; simpl; [done |].
  destruct (behaviour h data); simpl; by rewrite IH.
Qed.

Lemma listener_actions a topic data :
  let acts :=
    messageListener behaviour a (Some (mkMessage MsgPublish topic data)) in
  invocations acts =
    (fun h => (h, data)) <$> handlersOf (subscriptions a) topic ∧
  consoleErrors acts =
    omap (fun h => match behaviour h data with
                   | Throw x => Some (topic, x)
                   | Normal _ => None
                   end) (handlersOf (subscriptions a) topic) ∧
  posts acts = [] ∧
  messageListener behaviour a None = [] ∧
  messageListener behaviour a (Some (mkMessage MsgSubscribe topic data)) = [].
Proof.
  cbv zeta. unfold messageListener, handlersOf. simpl.
  destruct (subscriptions a !! topic) as [hs |]; simpl; [| done].
  rewrite forEachIsolated_invocations, forEachIsolated_errors.
  repeat split. induction hs as [| h rest IH]; simpl; [done |].
  by destruct (behaviour h data).
Qed.

(** The webview adapter's message listener delivers in isolation.  On a
    message of type publish it calls every handler registered for the topic
    exactly once, in registration order, with the message's data, whichever
    of them throw; it logs one [console.error] per handler that throws and
    does nothing else.  A missing message and a message of type subscribe
    cause no call at all. *)
Theorem listener_delivers_to_every_handler a topic data :
  let acts :=
    messageListener behaviour a (Some (mkMessage MsgPublish topic data)) in
  invocations acts =
    (fun h => (h, data)) <$> handlersOf (subscriptions a) topic ∧
  consoleErrors acts =
    omap (fun h => match behaviour h data with
                   | Throw x => Some (topic, x)
                   | Normal _ => None
                   end) (handlersOf (subscriptions a) topic) ∧
  posts acts = [] ∧
  messageListener behaviour a None = [] ∧
  messageListener behaviour a (Some (mkMessage MsgSubscribe topic data)) = [].
Proof. apply listener_actions. Qed.

(** Subscribing at the webview adapter starts delivery and calling the
    returned function ends it: after [subscribe] a publish message on the
    topic reaches the handler, after the returned function has been called
    it never does. *)
Theorem webview_subscription_lifecycle a topic h data :
  (h, data) ∈
    invocations
      (messageListener behaviour (adapterSubscribe a topic h)
         (Some (mkMessage MsgPublish topic data))) ∧
  (∀ d, (h, d) ∉
          invocations
            (messageListener behaviour (adapterUnsubscribe a topic h)
               (Some (mkMessage MsgPublish topic data)))).
Proof.
  split.
  - destruct (listener_actions
                (adapterSubscribe a topic h) topic data) as [-> _].
    apply list_elem_of_fmap. exists h. split; [done |].
    unfold adapterSubscribe, handlersOf. simpl. rewrite lookup_insert_eq.
    simpl. unfold setAdd. destruct (decide (h ∈ _)); [done |].
    apply elem_of_app. right. apply list_elem_of_here.
  - intros d.
    destruct (listener_actions
                (adapterUnsubscribe a topic h) topic data) as [-> _].
    intros (h' & [= <- _] & Hin)%list_elem_of_fmap.
    unfold adapterUnsubscribe, handlersOf in Hin.
    destruct (subscriptions a !! topic) as [hs |] eqn:Hl; simpl in Hin.
    + pose proof (list_elem_of_filter (fun h' => h' ≠ h) hs h) as Hf.
      fold (setDelete h hs) in Hf.
      destruct (setDelete h hs) as [| h0 hs0]; simpl in Hin.
      * rewrite lookup_delete_eq in Hin. by apply elem_of_nil in Hin.
      * rewrite lookup_insert_eq in Hin. simpl in Hin.
        apply Hf in Hin as [? _]. done.
    + rewrite Hl in Hin. by apply elem_of_nil in Hin.
Qed.
End WebviewExtras.

(** The sending side of the webview adapter has exactly two routes, and
    [isFallbackMode] tells which.  The adapter is out of fallback mode
    exactly when a window exists and [acquireVsCodeApi] returned; then every
    [publish] is one [postMessage] on the VS Code API.  In fallback mode
    every [publish] is one [postMessage] to [window.parent] with target
    origin ["*"] when a window with a parent exists, and one console warning
    otherwise.  The message always has type publish and carries the topic
    and data as given. *)
Theorem webview_publish_route env topic data :
  let t := (newWebviewPubSubAdapter env).1 in
  let message := mkMessage MsgPublish topic data in
  (isFallbackMode t = false ↔
   hasWindow env = true ∧ acquireVsCodeApi env = AcquireReturns) ∧
  vscodeApi t = negb (isFallbackMode t) ∧
  adapterPublish env t topic data =
    if isFallbackMode t
    then if hasWindow env && hasParent env
         then [ParentPostMessage message "*"]
         else [ConsoleWarn]
    else [ApiPostMessage message].
Proof.
  destruct env as [[] [| | e] []]; simpl; repeat split; try done;
    intros [? ?]; done.
Qed.

(** * Further properties of the authoritative adapter *)

Section AdapterExtras.
Context {TSnapshot TEvent : Type}.
Variable initialSnapshot : TSnapshot.
Variable transition : TSnapshot → TEvent → Completion TSnapshot.
Variable machineId : string.
Implicit Types (a : AppMachine.Adapter TSnapshot).
Implicit Types (inbound : list (AppMachine.Inbound TEvent)).

Abbreviation bcasts := (AppMachine.broadcasts transition machineId).
Abbreviation life := (AppMachine.lifetime initialSnapshot transition machineId).
Abbreviation after := (adapterAfter initialSnapshot transition machineId).
Abbreviation arun := (adapterRun transition machineId).
Abbreviation versionOf := (fun p => serverSeq (AppMachine.payloadOf p)).

Lemma broadcasts_consecutive inbound : ∀ a,
  versionOf <$> bcasts a inbound =
    seqZ (AppMachine.serverSeqCounter a + 1)
      (Z.of_nat (length (bcasts a inbound))) ∧
  AppMachine.serverSeqCounter (arun a inbound) =
    AppMachine.serverSeqCounter a + Z.of_nat (length (bcasts a inbound)).
Proof.
  induction inbound as [| i rest IH]; intros a; simpl.
  { split; [done | lia]. }
  pose proof (deliver_versions transition machineId a i) as Hd.
  destruct (AppMachine.deliver transition machineId a i) as [[a' pubs] res].
  destruct (IH a') as [Hv Hc]. simpl.
  destruct Hd as [[-> Ha'] | (p & -> & Hp & Ha')]; simpl.
  - rewrite <- Ha'. done.
  - split; [| lia].
    rewrite (seqZ_cons (AppMachine.serverSeqCounter a + 1)) by lia.
    rewrite <- Hp at 1. f_equal.
    replace (Z.succ (AppMachine.serverSeqCounter a + 1))
      with (AppMachine.serverSeqCounter a' + 1) by lia.
    replace (Z.pred (Z.of_nat (S (length (bcasts a' rest)))))
      with (Z.of_nat (length (bcasts a' rest))) by lia.
    exact Hv.
Qed.

Lemma lifetime_consecutive inbound :
  versionOf <$> life inbound = seqZ 1 (Z.of_nat (length (life inbound))) ∧
  AppMachine.serverSeqCounter (after inbound) =
    Z.of_nat (length (life inbound)).
Proof.
  unfold AppMachine.lifetime, adapterAfter,
    AppMachine.wireAppMachineToBroker. simpl.
  match goal with |- context [bcasts ?a inbound] =>
    destruct (broadcasts_consecutive inbound a) as [Hv Hc]
  end.
  simpl in *. rewrite Hc. split; [| lia].
  rewrite (seqZ_cons 1) by lia. f_equal.
  unfold fmap in Hv. rewrite Hv. f_equal. lia.
Qed.

(** The adapter numbers its broadcasts 1, 2, 3, ... without gaps: over any
    sequence of deliveries the [n]-th broadcast of its life has version [n],
    and the counter always equals the number of broadcasts made so far. *)
Theorem adapter_versions_are_consecutive inbound :
  let published :=
    AppMachine.lifetime initialSnapshot transition machineId inbound in
  (fun p => serverSeq (AppMachine.payloadOf p)) <$> published =
    seqZ 1 (Z.of_nat (length published)) ∧
  AppMachine.serverSeqCounter
    (adapterAfter initialSnapshot transition machineId inbound) =
    Z.of_nat (length published).
Proof. apply lifetime_consecutive. Qed.



Lemma deliver_shape a i :
  let '(a', pubs, _) := AppMachine.deliver transition machineId a i in
  (pubs = [] ∧
   AppMachine.actorSnapshot a' = AppMachine.actorSnapshot a ∧
   AppMachine.serverSeqCounter a' = AppMachine.serverSeqCounter a) ∨
  (∃ p, pubs = [p] ∧
        snapshot (AppMachine.payloadOf p) = AppMachine.actorSnapshot a' ∧
        versionOf p = AppMachine.serverSeqCounter a').
Proof.
  destruct i as [data |]; simpl.
  - unfold AppMachine.onEvent. simpl.
    destruct (transition (AppMachine.actorSnapshot a) (event data)); simpl.
    + right. eexists. split; [reflexivity |]. done.
    + by left.
  - right. eexists. split; [reflexivity |]. done.
Qed.

Lemma broadcasts_last inbound : ∀ a,
  match last (bcasts a inbound) with
  | Some p =>
      snapshot (AppMachine.payloadOf p) =
        AppMachine.actorSnapshot (arun a inbound) ∧
      versionOf p = AppMachine.serverSeqCounter (arun a inbound)
  | None =>
      AppMachine.actorSnapshot (arun a inbound) = AppMachine.actorSnapshot a ∧
      AppMachine.serverSeqCounter (arun a inbound) =
        AppMachine.serverSeqCounter a
  end.
Proof.
  induction inbound as [| i rest IH]; intros a; simpl; [done |].
  pose proof (deliver_shape a i) as Hd.
  destruct (AppMachine.deliver transition machineId a i) as [[a' pubs] res].
  simpl. rewrite last_app. specialize (IH a').
  destruct (last (bcasts a' rest)) as [q |]; [exact IH |].
  destruct IH as [-> ->].
  destruct Hd as [(-> & Hs & Hc) | (p & -> & Hs & Hc)]; simpl; done.
Qed.

Lemma lifetime_last inbound :
  ∃ p, last (life inbound) = Some p ∧
       snapshot (AppMachine.payloadOf p) =
         AppMachine.actorSnapshot (after inbound) ∧
       serverSeq (AppMachine.payloadOf p) =
         AppMachine.serverSeqCounter (after inbound).
Proof.
  unfold AppMachine.lifetime, adapterAfter.
  destruct (AppMachine.wireAppMachineToBroker initialSnapshot machineId)
    as [a0 pubs0] eqn:Hw.
  unfold AppMachine.wireAppMachineToBroker, AppMachine.publishSnapshot in Hw.
  injection Hw as <- <-. cbn [fst snd].
  match goal with |- context [bcasts ?a inbound] => set (a0 := a) end.
  pose proof (broadcasts_last inbound a0) as Hlast.
  rewrite last_app.
  destruct (last (bcasts a0 inbound)) as [q |].
  - exists q. by split.
  - eexists. split; [reflexivity |]. destruct Hlast as [-> ->]. done.
Qed.

(** The latest broadcast always tells the truth about the host: at any
    moment of the adapter's life the most recent broadcast carries the
    current authoritative state and the current value of the version
    counter. *)
Theorem latest_broadcast_carries_current_state inbound :
  ∃ p, last (life inbound) = Some p ∧
       snapshot (AppMachine.payloadOf p) =
         AppMachine.actorSnapshot (after inbound) ∧
       serverSeq (AppMachine.payloadOf p) =
         AppMachine.serverSeqCounter (after inbound).
Proof. apply lifetime_last. Qed.
End AdapterExtras.

(** * Host and client together *)

Section HostAndClient.
Context {TEvent : Type}.
Implicit Types (c : Store.Client TEvent) (options : Options TEvent).
Implicit Types (inputs : list (Input TEvent)).



End HostAndClient.

(** * Topic names and retention *)

Lemma prefix_app_l needle s1 s2 :
  String.prefix needle s1 = true → String.prefix needle (s1 +:+ s2) = true.
Proof.
  revert s1. induction needle as [| a needle IH]; intros s1;
    [intros _; by destruct (s1 +:+ s2) |].
  destruct s1 as [| b s1]; simpl; [done |].
  destruct (Ascii.ascii_dec a b); [apply IH | done].
Qed.

Lemma includes_app_l s1 s2 needle :
  includes s1 needle = true → includes (s1 +:+ s2) needle = true.
Proof.
  induction s1 as [| a s1 IH]; intros H; rewrite includes_unfold in H.
  - simpl in H. rewrite orb_false_r in H.
    destruct needle; [| done]. rewrite includes_unfold. by destruct s2.
  - rewrite includes_unfold.
    apply orb_true_iff in H as [H | H].
    + by rewrite prefix_app_l.
    + simpl. rewrite IH by done. apply orb_true_r.
Qed.

(** The relay decides what to retain by looking for [":snapshot"] anywhere
    in the topic name, so a machine id that contains it turns the events
    topic into a retaining topic as well: the last action envelope published
    for such a machine is kept and handed to whoever subscribes to the events
    topic later. *)
Theorem events_retained_when_machine_id_names_snapshot
    (behaviour : HandlerId → JsValue → Completion unit)
    (machineId : string) (b : PubSubBroker) (data : JsValue)
    (h : HandlerId) :
  includes machineId ":snapshot" = true →
  truthy data = true →
  let topic := AppMachine.eventsTopic machineId in
  includes topic ":snapshot" = true ∧
  (subscribe behaviour (publish behaviour b topic data).1.1 topic h).1.2 =
    [Invoke h data].
Proof.
  intros Hid Hdata topic.
  assert (includes topic ":snapshot" = true) as Htopic.
  { unfold topic, AppMachine.eventsTopic.
    by apply includes_app_r, includes_app_l. }
  split; [done |].
  rewrite (subscribe_replay behaviour _ topic h data).
  - by rewrite Hdata.
  - rewrite publish_state, Htopic. simpl. apply lookup_insert_eq.
Qed.

(** * The further properties on concrete inputs *)

Lemma acknowledgment_retires_a_prefix_witness :
  let inputs := [InSend "a"; InSend "b"; InSend "c"] in
  let rs := mkRemoteSnapshot (Scenario.countObject 2) 1 (Some 2) in
  ∃ k, Store.pendingEvents
         (Store.handleSnapshot Scenario.plainOptions
            (Store.run Scenario.plainOptions
               (Store.useRemoteMachine Scenario.plainOptions) inputs) rs).1 =
         drop k (Store.pendingEvents
                   (Store.run Scenario.plainOptions
                      (Store.useRemoteMachine Scenario.plainOptions) inputs)) ∧
       Forall (fun e => clientSeq e ≤ 2)
         (take k (Store.pendingEvents
                    (Store.run Scenario.plainOptions
                       (Store.useRemoteMachine Scenario.plainOptions)
                       inputs))).
Proof.
  intros inputs rs.
  apply (acknowledgment_retires_a_prefix Scenario.plainOptions inputs rs 2);
    [by vm_compute | reflexivity].
Defined.


Lemma newest_broadcast_wins_witness :
  let b1 := mkRemoteSnapshot (JsNum 10) 1 None in
  let b2 := mkRemoteSnapshot (JsNum 20) 2 (Some 1) in
  let b3 := mkRemoteSnapshot (JsNum 30) 3 None in
  let inputs := [InSnapshot b2; InSend "inc"; InSnapshot b3; InSnapshot b1;
                 InSnapshot b3; InSnapshot b2] in
  Store.baseState
    (Store.run Scenario.countingOptions
       (Store.useRemoteMachine Scenario.countingOptions) inputs) = JsNum 30 ∧
  Store.lastServerSeq
    (Store.run Scenario.countingOptions
       (Store.useRemoteMachine Scenario.countingOptions) inputs) = 3.
Proof.
  intros b1 b2 b3 inputs.
  apply (newest_broadcast_wins Scenario.countingOptions inputs b3).
  - apply list_elem_of_In. simpl. tauto.
  - by vm_compute.
  - intros rs' Hin%list_elem_of_In. simpl in Hin.
    destruct Hin as [<- | [<- | [<- | [<- | [<- | []]]]]]; simpl;
      (by right) || (left; lia).
Defined.

Lemma reducer_applied_in_issuance_order_witness :
  let pending := [mkTracked "a" 1; mkTracked "b" 2] in
  ((deriveState (Some Scenario.countingReducer) (JsNum 5) pending).1).*2 =
    ["a"; "b"] ∧
  Scenario.countingReducer (JsNum 6) "b" = Normal (JsNum 7).
Proof.
  intros pending.
  destruct (reducer_applied_in_issuance_order Scenario.countingReducer
              (JsNum 5) pending) as (_ & Hall & _ & _ & Hlast).
  split.
  - apply (Hall (JsNum 7)); reflexivity.
  - apply (Hlast (JsNum 6) "b"). reflexivity.
Defined.

Lemma send_extends_prediction_witness :
  let c := Store.run Scenario.countingOptions
             (Store.useRemoteMachine Scenario.countingOptions)
             [InSnapshot (mkRemoteSnapshot (JsNum 5) 1 None); InSend "inc"] in
  (Store.state Scenario.countingOptions (Store.send c "inc").1).2 =
    Normal (JsNum 7).
Proof.
  intros c.
  pose (p := fun (s : JsValue) (_ : string) =>
               match s with JsNum n => JsNum (n + 1) | _ => JsNum 1 end).
  apply (send_extends_prediction Scenario.countingOptions
           Scenario.countingReducer p c "inc" (JsNum 6)); try reflexivity.
  intros s e. unfold Scenario.countingReducer, p. by destruct s.
Defined.

Lemma publish_reaches_every_handler_and_panel_witness :
  let topic := "machine:app:snapshot" in
  let data := Scenario.countObject 1 in
  let b := relayRun Scenario.quiet createBroker
             [OpAttach 7%nat; OpSubscribe topic 1%nat;
              OpSubscribe topic 2%nat] in
  (publish Scenario.quiet b topic data).1.2 =
    [Invoke 1%nat data; Invoke 2%nat data;
     PostMessage 7%nat (mkMessage MsgPublish topic data)].
Proof.
  intros topic data b.
  destruct (publish_reaches_every_handler_and_panel Scenario.quiet b topic
              data) as [-> _]; [| by vm_compute].
  apply Forall_forall. intros h _. by exists tt.
Defined.

Lemma subscribe_then_unsubscribe_restores_witness :
  let topic := "machine:app:events" in
  let b := relayRun Scenario.quiet createBroker [OpSubscribe topic 1%nat] in
  unsubscribe (subscribe Scenario.quiet b topic 2%nat).1.1 topic 2%nat = b ∧
  unsubscribe (subscribe Scenario.quiet createBroker topic 2%nat).1.1
    topic 2%nat = createBroker.
Proof.
  intros topic b. split.
  - apply subscribe_then_unsubscribe_restores.
    + apply (relayRun_wf Scenario.quiet [OpSubscribe topic 1%nat]).
    + vm_compute. intros Hin%list_elem_of_In. simpl in Hin.
      destruct Hin as [Heq | []]. discriminate.
  - apply subscribe_then_unsubscribe_restores.
    + apply (relayRun_wf Scenario.quiet []).
    + vm_compute. by intros ?%elem_of_nil.
Defined.

Lemma unsubscribe_stops_delivery_witness :
  let topic := "machine:app:events" in
  let b := relayRun Scenario.quiet createBroker
             [OpSubscribe topic 1%nat; OpSubscribe topic 2%nat] in
  2%nat ∈ handlersOf (topicHandlers (unsubscribe b topic 1%nat)) topic.
Proof.
  intros topic b.
  destruct (unsubscribe_stops_delivery Scenario.quiet b topic 1%nat)
    as [_ Hstay].
  apply Hstay; [done |].
  vm_compute. apply list_elem_of_In. simpl. tauto.
Defined.



Lemma events_retained_when_machine_id_names_snapshot_witness :
  let topic := AppMachine.eventsTopic "editor:snapshot" in
  let data := JsObj [("clientSeq", JsNum 1)] in
  (subscribe Scenario.quiet
     (publish Scenario.quiet createBroker topic data).1.1 topic 1%nat).1.2 =
    [Invoke 1%nat data].
Proof.
  intros topic data.
  apply (events_retained_when_machine_id_names_snapshot Scenario.quiet
           "editor:snapshot" createBroker data 1%nat); reflexivity.
Defined.
